(** * Tangram tile manager: a shallow embedding of [src/tile/tile_manager.js]

    The tile manager owns the tile cache ([this.tiles]), keeps the tile
    pyramid in step with it, schedules tile builds on the workers, reconciles
    the results the workers send back, and debounces the label collision
    pass.  JavaScript objects used as dictionaries become [gmap]s, arrays
    become lists, numbers that are integers in the program become [Z]; the
    view's zoom and the world-metric coordinates, which are binary64
    numbers, are kept as the rationals [Q] that they are, and the arithmetic
    on them rounds its exact result with [to_double].
    Calls into collaborators that only have an effect outside the manager
    (redraw requests, releasing GL resources, worker messages, task
    scheduling) are recorded, in order, in the [trace] of the state; the
    [log] calls are left out.

    Tile objects are shared by reference between the cache, the pyramid and
    the renderable list.  Here the cache holds the tile records; the pyramid
    holds keys into the cache; the renderable list holds the records as they
    were when [updateRenderableTiles] last ran, which is the state in which
    [updateTileStates] reads them.  A method that updates a cached tile
    object in place writes the updated record back to its slot of the cache.

    [for (let t in this.tiles)] enumerates a [gmap] in the order of
    [map_to_list] instead of insertion order.  The order shows in the order
    of the renderable list and of the events, and in which of two proxy
    assignments to one tile comes last; nothing proved below depends on it. *)

From Stdlib Require Import ZArith QArith Qround Qabs String List Permutation Sorted Lia.
From stdpp Require Import base gmap sets list strings pretty.

Set Default Proof Using "Type".
Set Warnings "-clear-no-such-hyp".

(** ** Data model *)

(** A tile coordinate ([TileID.coord]): integer x, y, z and its key. *)
Module Coord.
Record t := mk { x : Z; y : Z; z : Z; key : string }.
End Coord.

(** A data source, as far as the manager looks at it. *)
Module Source.
Record t := mk { id : Z; tiled : bool; builds_geometry_tiles : bool }.
End Source.

(** A mesh of a tile; only its creation timestamp is read here. *)
Record Mesh := { created_at : Z }.

(** The fields of a [Tile] object that [tile_manager.js] reads or writes.
    [proxy_for] refers to another tile by its key. *)
Module Tile.
Record t := mk {
  key : string;
  id : Z;
  generation : Z;
  coords : Coord.t;
  style_z : Z;
  source : Source.t;
  worker : option Z;
  visible : bool;
  loaded : bool;
  built : bool;
  labeled : bool;
  valid : bool;
  build_id : Z;
  meshes : list (string * list Mesh);
  proxy_for : option string }.

Definition set_visible (b : bool) (tile : t) : t :=
  mk (key tile) (id tile) (generation tile) (coords tile) (style_z tile) (source tile)
     (worker tile) b (loaded tile) (built tile) (labeled tile) (valid tile)
     (build_id tile) (meshes tile) (proxy_for tile).

Definition set_built (b : bool) (tile : t) : t :=
  mk (key tile) (id tile) (generation tile) (coords tile) (style_z tile) (source tile)
     (worker tile) (visible tile) (loaded tile) b (labeled tile) (valid tile)
     (build_id tile) (meshes tile) (proxy_for tile).

(** Modelled from the spec: [setProxyFor] of the tile class ([tile.js] is
    not among the sources) is the "proxy-assignment setter" of the
    [proxy_for] relation; [None] clears it. *)
Definition setProxyFor (target : option string) (tile : t) : t :=
  mk (key tile) (id tile) (generation tile) (coords tile) (style_z tile) (source tile)
     (worker tile) (visible tile) (loaded tile) (built tile) (labeled tile) (valid tile)
     (build_id tile) (meshes tile) target.
End Tile.

(** [progress] of a build message. *)
Module Progress.
Record t := mk { done : bool }.
End Progress.

(** [scene.building]: absent, or a rebuild record with its [initial] flag. *)
Record Building := { initial : bool }.

Module Scene.
Record t := mk {
  generation : Z;
  building : option Building;
  sources : list Source.t;
  workers : Z  (* scene.workers.length *) }.
End Scene.

Module View.
Record t := mk {
  zoom : Q;
  tile_zoom : Z;
  zoom_direction : Z;
  center_meters : Q * Q;   (* view.center.meters.x, .y *)
  center_tile_z : Z        (* view.center.tile.z *) }.

Definition set_zoom_direction (d : Z) (v : t) : t :=
  mk (zoom v) (tile_zoom v) d (center_meters v) (center_tile_z v).
End View.

(** The collision task made by [updateLabels]; its [run] closure captures
    the sorted tile list. *)
Record CollisionTask := { task_tiles : list Tile.t }.

(** [this.collision].  The strings that [JSON.stringify] returns are
    represented by the values they serialise: [JSON.stringify] is injective
    on arrays of strings and on nested arrays of finite numbers, so [===] on
    the strings is equality of these values. *)
Module Collision.
Record t := mk {
  mesh_set : option (list (list (list Z)));
  tile_keys : option (list string);
  zoom : option string;
  zoom_steps : Z;
  task : option CollisionTask }.
End Collision.

(** Effects on the collaborators, in program order. *)
Inductive Event :=
| TileDestroy (tile : Tile.t)            (* tile.destroy() *)
| RequestRedraw                          (* scene.requestRedraw() *)
| AbortBuild (tile : Tile.t)             (* Tile.abortBuild(tile) *)
| TileBuild (tile : Tile.t) (gen : Z)    (* tile.build(generation, options) *)
| BuildMeshes (tile : Tile.t)            (* tile.buildMeshes(styles, progress) *)
| TileManagerBuildDone                   (* scene.tileManagerBuildDone() *)
| TaskAdd (task : CollisionTask).        (* Task.add(task) *)

(** The tile manager, the scene and view it points to, and the effects so far. *)
Record State := mkState {
  scene : Scene.t;
  view : View.t;
  tiles : gmap string Tile.t;
  pyramid : gset string;
  visible_coords : gmap string Coord.t;
  queued_coords : list Coord.t;
  building_tiles : option (gset string);
  renderable_tiles : list Tile.t;
  active_styles : list string;
  collision : Collision.t;
  trace : list Event }.

Definition set_view (f : View.t → View.t) (s : State) : State :=
  mkState (scene s) (f (view s)) (tiles s) (pyramid s) (visible_coords s) (queued_coords s)
          (building_tiles s) (renderable_tiles s) (active_styles s) (collision s) (trace s).
Definition set_tiles (f : gmap string Tile.t → gmap string Tile.t) (s : State) : State :=
  mkState (scene s) (view s) (f (tiles s)) (pyramid s) (visible_coords s) (queued_coords s)
          (building_tiles s) (renderable_tiles s) (active_styles s) (collision s) (trace s).
Definition set_pyramid (f : gset string → gset string) (s : State) : State :=
  mkState (scene s) (view s) (tiles s) (f (pyramid s)) (visible_coords s) (queued_coords s)
          (building_tiles s) (renderable_tiles s) (active_styles s) (collision s) (trace s).
Definition set_queued_coords (q : list Coord.t) (s : State) : State :=
  mkState (scene s) (view s) (tiles s) (pyramid s) (visible_coords s) q
          (building_tiles s) (renderable_tiles s) (active_styles s) (collision s) (trace s).
Definition set_building_tiles (b : option (gset string)) (s : State) : State :=
  mkState (scene s) (view s) (tiles s) (pyramid s) (visible_coords s) (queued_coords s)
          b (renderable_tiles s) (active_styles s) (collision s) (trace s).
Definition set_renderable_tiles (r : list Tile.t) (s : State) : State :=
  mkState (scene s) (view s) (tiles s) (pyramid s) (visible_coords s) (queued_coords s)
          (building_tiles s) r (active_styles s) (collision s) (trace s).
Definition set_active_styles (a : list string) (s : State) : State :=
  mkState (scene s) (view s) (tiles s) (pyramid s) (visible_coords s) (queued_coords s)
          (building_tiles s) (renderable_tiles s) a (collision s) (trace s).
Definition set_collision (c : Collision.t) (s : State) : State :=
  mkState (scene s) (view s) (tiles s) (pyramid s) (visible_coords s) (queued_coords s)
          (building_tiles s) (renderable_tiles s) (active_styles s) c (trace s).
Definition emit (e : Event) (s : State) : State :=
  mkState (scene s) (view s) (tiles s) (pyramid s) (visible_coords s) (queued_coords s)
          (building_tiles s) (renderable_tiles s) (active_styles s) (collision s) (trace s ++ [e]).

(** ** Completion of a call

    The only exception the manager raises itself is the [TypeError] of
    [removeTile] on a key that is not cached.  A call either completes with
    a state or throws, leaving the state it had reached. *)
Inductive JsError := TypeError.

Inductive Outcome :=
| Ok (s : State)
| Throw (e : JsError) (s : State).

Definition and_then (o : Outcome) (f : State → Outcome) : Outcome :=
  match o with
  | Ok s => f s
  | Throw e s => Throw e s
  end.

Notation "o >>> f" := (and_then o f) (at level 61, left associativity).

(** ** The tile pyramid *)

(** The spatial index ([tile_pyramid.js]) is not among the sources.  By
    the spec it "maintains tiles across zoom levels", with "insert/remove by
    tile", and "holds only a lookup reference" to tiles the cache owns.  It
    is modelled as the set of the keys of the tiles put into it; the tile
    objects themselves are looked up in the cache. *)
Module Pyramid.

(** Modelled from the spec: [addTile(tile)] of the missing [TilePyramid],
    the "insert ... by tile" of the spatial index. *)
Definition addTile (tile : Tile.t) (p : gset string) : gset string :=
  {[ Tile.key tile ]} ∪ p.

(** Modelled from the spec: [removeTile(tile)] of the missing [TilePyramid],
    the "remove by tile" of the spatial index. *)
Definition removeTile (tile : Tile.t) (p : gset string) : gset string :=
  p ∖ {[ Tile.key tile ]}.

End Pyramid.

(** ** Admission and eviction *)

(** [keepTile(tile)] (l. 50). *)
Definition keepTile (tile : Tile.t) (s : State) : State :=
  set_pyramid (Pyramid.addTile tile) (set_tiles (insert (Tile.key tile) tile) s).

(** [hasTile(key)] (l. 55): [this.tiles[key] !== undefined]. *)
Definition hasTile (key : string) (s : State) : bool :=
  match tiles s !! key with Some _ => true | None => false end.

(** Build tracking (l. 428-450): [building_tiles] is [null] or the set of
    keys under build. *)
Definition checkBuildQueue (s : State) : State :=
  match building_tiles s with
  | Some b =>
      if decide (b = ∅)
      then emit TileManagerBuildDone (set_building_tiles None s)
      else s
  | None => emit TileManagerBuildDone (set_building_tiles None s)
  end.

Definition tileBuildStart (key : string) (s : State) : State :=
  set_building_tiles (Some ({[ key ]} ∪ default ∅ (building_tiles s))) s.

Definition tileBuildStop (key : string) (s : State) : State :=
  match building_tiles s with
  | Some b => checkBuildQueue (set_building_tiles (Some (b ∖ {[ key ]})) s)
  | None => s
  end.

(** [forgetTile(key)] (l. 59). *)
Definition forgetTile (key : string) (s : State) : State :=
  let s1 := match tiles s !! key with
            | Some tile => set_pyramid (Pyramid.removeTile tile) s   (* hasTile(key) *)
            | None => s
            end in
  tileBuildStop key (set_tiles (delete key) s1).

(** [removeTile(key)] (l. 70): the destroy is guarded by [tile != null],
    the read of [tile.key] that follows is not. *)
Definition removeTile (key : string) (s : State) : Outcome :=
  match tiles s !! key with
  | Some tile =>
      Ok (emit RequestRedraw (forgetTile (Tile.key tile) (emit (TileDestroy tile) s)))
  | None => Throw TypeError s
  end.

(** ** Collaborators

    The functions of the view, of [TileID], of [Geo], of the tile class and
    of the pyramid that the manager calls and whose code is not part of this
    development.  The manager is defined, and its properties are proved, for
    every such environment. *)
Record Env := {
  (* TileID.isDescendant(a, b) *)
  isDescendant : Coord.t → Coord.t → bool;
  (* TileID.normalizedKey(coords, source, style_z); undefined is None *)
  normalizedKey : Coord.t → Source.t → Z → option string;
  (* source.includesTile(coords, style_z) *)
  includesTile : Source.t → Coord.t → Z → bool;
  (* view.baseZoom(z) *)
  baseZoom : View.t → Z → Z;
  (* view.findVisibleTileCoordinates() *)
  findVisibleTileCoordinates : View.t → list Coord.t;
  (* new Tile({ source, coords, worker, style_z, view }) *)
  newTile : Source.t → Coord.t → option Z → Z → View.t → Tile.t;
  (* what tile.build(generation, options) leaves in the tile object *)
  tileBuild : Z → Tile.t → Tile.t;
  (* cached.merge(result): the cached tile object after the merge *)
  merge : Tile.t → Tile.t → Tile.t;
  (* what tile.buildMeshes(styles, progress) leaves in the tile object *)
  buildMeshes : Progress.t → Tile.t → Tile.t;
  (* pyramid.getAncestor(tile): the key of the tile it returns *)
  getAncestor : gset string → gmap string Tile.t → Tile.t → option string;
  (* pyramid.getDescendants(tile): the keys of the tiles it returns *)
  getDescendants : gset string → gmap string Tile.t → Tile.t → list string;
  (* the retention policy of view.pruneTilesForView(): true for a tile to evict *)
  outsideRetention : View.t → Tile.t → bool;
  (* Geo.metersPerTile(z) *)
  metersPerTile : Z → Q;
  (* Geo.metersForTile(coords): x and y *)
  metersForTile : Coord.t → Q * Q }.

(** ** [Array.prototype.sort]

    The sort is stable, and for a consistent comparator its result is the
    one stable ordering; it is computed here by insertion.  (For an
    inconsistent comparator ECMAScript leaves the order to the engine.) *)
Fixpoint sort_insert {A} (cmp : A → A → Z) (a : A) (l : list A) : list A :=
  match l with
  | [] => [a]
  | b :: l' => if (cmp a b <=? 0)%Z then a :: l else b :: sort_insert cmp a l'
  end.

Definition array_sort {A} (cmp : A → A → Z) (l : list A) : list A :=
  foldr (sort_insert cmp) [] l.

(** [Object.keys] of an object filled key by key: first insertions, in order. *)
Definition object_keys (l : list string) : list string :=
  foldl (λ acc k, if decide (k ∈ acc) then acc else acc ++ [k]) [] l.

(** ** Numbers

    A JavaScript number is an IEEE 754 binary64 value.  A finite one is a
    rational and is kept as such; an arithmetic operation yields its exact
    result rounded to the nearest binary64 value, to the one with the even
    significand on a tie.  [to_double] is that rounding, for a significand
    of 53 bits and the least exponent -1074 (so gradual underflow is in);
    a result beyond the largest finite number, which is [Infinity] in the
    program, is outside of it, and so is [NaN]. *)

(** The integer closest to [num / den], the even one on a tie. *)
Definition round_half_even (num den : Z) : Z :=
  let q := (num / den)%Z in
  let r := (num mod den)%Z in
  match (2 * r ?= den)%Z with
  | Lt => q
  | Gt => (q + 1)%Z
  | Eq => if Z.even q then q else (q + 1)%Z
  end.

Definition to_double (q : Q) : Q :=
  let n := Qnum q in
  let d := Zpos (Qden q) in
  if (n =? 0)%Z then 0%Q
  else
    let a := Z.abs n in
    (* |q| / 2^e as a fraction *)
    let scaled e := ((a * 2 ^ Z.max 0 (- e))%Z, (d * 2 ^ Z.max 0 e)%Z) in
    let e0 := (Z.log2 a - Z.log2 d - 52)%Z in
    (* the exponent for which 2^52 <= |q| / 2^e < 2^53 *)
    let e1 := if ((scaled e0).1 <? (scaled e0).2 * 2 ^ 52)%Z then (e0 - 1)%Z else e0 in
    let e := Z.max e1 (-1074) in
    let m := round_half_even (scaled e).1 (scaled e).2 in
    let v := (inject_Z m * Qpower 2 e)%Q in
    if (n <? 0)%Z then (- v)%Q else v.

(** ** Label collision fingerprint *)

(** [Number.prototype.toFixed(2)] for magnitudes below 1e21: the closest
    multiple of 1/100, the larger one on a tie, printed with two decimals. *)
Definition toFixed2 (v : Q) : string :=
  let n := Qfloor (Qabs v * 100 + (1 # 2))%Q in
  let frac := (n mod 100)%Z in
  (if Qlt_le_dec v 0 then "-" else "") +:+
  pretty (n / 100)%Z +:+ "." +:+ (if (frac <? 10)%Z then "0" else "") +:+ pretty frac.

(** [roundPrecision(x, d)] with the default [places = 2]: the product and
    the quotient are rounded, [Math.floor] is exact.  For [d = 0] the
    quotient is [NaN]. *)
Definition roundPrecision (x : Q) (d : Z) : string :=
  if decide (d = 0%Z) then "NaN"
  else toFixed2 (to_double (inject_Z (Qfloor (to_double (x * inject_Z d))) / inject_Z d)).

Definition meshSetString (tiles : list Tile.t) : list (list (list Z)) :=
  map (λ t, map (λ s, map created_at s.2) (Tile.meshes t)) tiles.

(** The comparator of the sort in [updateLabels]. *)
Definition build_order (a b : Tile.t) : Z :=
  if (Tile.build_id a <? Tile.build_id b)%Z then (-1)%Z
  else if (Tile.build_id a >? Tile.build_id b)%Z then 1%Z else 0%Z.

(** The tiles [updateLabels] works on. *)
Definition label_tiles (s : State) : list Tile.t :=
  array_sort build_order
    (List.filter Tile.built (List.filter Tile.valid (renderable_tiles s))).

(** [updateLabels()] (l. 131); the promise it returns is not modelled. *)
Definition updateLabels (s : State) : State :=
  match Scene.building (scene s) with
  | Some {| initial := false |} => s
  | _ =>
    if decide (length (List.filter Tile.built (List.filter Tile.valid (renderable_tiles s))) = 0)
    then s
    else
      let tiles := label_tiles s in
      let c := collision s in
      let zoom := roundPrecision (View.zoom (view s)) (Collision.zoom_steps c) in
      let keys := map Tile.key tiles in
      let mesh_set := meshSetString tiles in
      if decide (Collision.zoom c = Some zoom ∧ Collision.tile_keys c = Some keys
                 ∧ Collision.mesh_set c = Some mesh_set)
      then s
      else
        match Collision.task c with
        | None =>
            let task := {| task_tiles := tiles |} in
            emit (TaskAdd task)
              (set_collision
                 (Collision.mk (Some mesh_set) (Some keys) (Some zoom)
                               (Collision.zoom_steps c) (Some task)) s)
        | Some _ => s
        end
  end.

(** ** The manager over its collaborators *)
Section Manager.
Context (E : Env).

Definition set_visible_coords (v : gmap string Coord.t) (s : State) : State :=
  mkState (scene s) (view s) (tiles s) (pyramid s) v (queued_coords s)
          (building_tiles s) (renderable_tiles s) (active_styles s) (collision s) (trace s).

(** [updateVisibility(tile)] (l. 226): the tile object after the call. *)
Definition updateVisibility (s : State) (tile : Tile.t) : Tile.t :=
  Tile.set_visible
    (if decide (Tile.style_z tile = View.tile_zoom (view s)) then
       match visible_coords s !! Coord.key (Tile.coords tile) with
       | Some _ => true
       | None =>
           (* brute force *)
           existsb (λ kc, isDescendant E (Tile.coords tile) kc.2)
                   (map_to_list (visible_coords s))
       end
     else false)
    tile.

(** [forEachTile(func)] (l. 84) for a [func] that updates the tile it is
    given. *)
Definition forEachTile (func : Tile.t → Tile.t) (s : State) : State :=
  set_tiles (fmap func) s.

(** [removeTiles(filter)] (l. 91): the keys are collected first, then
    removed. *)
Definition removeTiles (filter : Tile.t → bool) (s : State) : Outcome :=
  let remove_tiles := map fst (List.filter (λ kt, filter kt.2) (map_to_list (tiles s))) in
  foldl (λ o key, o >>> removeTile key) (Ok s) remove_tiles.

Definition pruneToVisibleTiles (s : State) : Outcome :=
  removeTiles (λ tile, negb (Tile.visible tile)) s.

(** Modelled from the spec: [view.pruneTilesForView()] ([view.js] is not
    among the sources) is to "evict tiles outside the retention window
    (policy owned by the viewport collaborator)"; eviction of the tiles
    that match a condition is [removeTiles]. *)
Definition pruneTilesForView (s : State) : Outcome :=
  removeTiles (outsideRetention E (view s)) s.

(** [updateRenderableTiles()] (l. 253). *)
Definition updateRenderableTiles (s : State) : State :=
  set_renderable_tiles
    (map snd (List.filter (λ kt, Tile.visible kt.2 && Tile.loaded kt.2)
                          (map_to_list (tiles s))))
    s.

(** [getWorkerForTile(coords, source)] (l. 265), as the index of the
    worker; [scene.workers[i]] is a worker for [0 <= i < length] only. *)
Definition getWorkerForTile (coords : Coord.t) (source : Source.t) (s : State) : option Z :=
  let n := Scene.workers (scene s) in
  let i := if Source.tiled source
           then Z.rem (Z.abs (Coord.x coords + Coord.y coords + Coord.z coords)) n
           else Z.rem (Source.id source) n in
  if decide (0 < n ∧ 0 ≤ i)%Z then Some i else None.

(** [updateActiveStyles()] (l. 285). *)
Definition updateActiveStyles (s : State) : State :=
  set_active_styles
    (object_keys (concat (map (λ tile, map fst (Tile.meshes tile)) (renderable_tiles s))))
    s.

Definition isLoadingVisibleTiles (s : State) : bool :=
  existsb (λ kt, Tile.visible kt.2 && negb (Tile.built kt.2)) (map_to_list (tiles s)).

Definition allVisibleTilesLabeled (s : State) : bool :=
  forallb Tile.labeled (renderable_tiles s).

Definition queueCoordinate (coords : Coord.t) (s : State) : State :=
  set_queued_coords (queued_coords s ++ [coords]) s.

(** [Geo.metersPerTile(z) / 2], the [half_span] of the comparator in
    [loadQueuedCoordinates] for a first operand at zoom [z]. *)
Definition half_span (z : Z) : Q := to_double (metersPerTile E z / 2).

(** The distance of the comparator in [loadQueuedCoordinates] (l. 320-329),
    as the program computes it: from the view center to the tile origin
    moved by [half_span], every sum and difference rounded; [Math.abs] is
    exact. *)
Definition center_dist (s : State) (half_span : Q) (c : Coord.t) : Q :=
  let center := View.center_meters (view s) in
  let m := metersForTile E c in
  let x := to_double (m.1 + half_span) in
  let y := to_double (m.2 - half_span) in
  to_double (Qabs (to_double (center.1 - x)) + Qabs (to_double (center.2 - y))).

(** The distance in the words of the specification: the Manhattan distance
    from the view center to the tile center, the tile origin moved by half
    a tile span, as a number of meters, without rounding. *)
Definition manhattan_dist (s : State) (half_span : Q) (c : Coord.t) : Q :=
  let center := View.center_meters (view s) in
  let m := metersForTile E c in
  (Qabs (center.1 - (m.1 + half_span)) + Qabs (center.2 - (m.2 - half_span)))%Q.

(** The comparator of the sort in [loadQueuedCoordinates]; [half_span] is
    taken from [a] for both coordinates.  (The comparator also stores the
    two distances in [a.center_dist] and [b.center_dist], which only the
    trace log of [loadCoordinate] reads; they are not kept here.) *)
Definition center_order (s : State) (a b : Coord.t) : Z :=
  let half_span := half_span (Coord.z a) in
  let ad := center_dist s half_span a in
  let bd := center_dist s half_span b in
  match (ad ?= bd)%Q with
  | Lt => (-1)%Z
  | Eq => 0%Z
  | Gt => 1%Z
  end.

(** [buildTile(tile)] (l. 373) for a tile that is cached under its key:
    the tile object in the cache is the one updated. *)
Definition buildTile (tile : Tile.t) (s : State) : State :=
  let s1 := tileBuildStart (Tile.key tile) s in
  let generation := Scene.generation (scene s1) in
  let tile' := tileBuild E generation (updateVisibility s1 tile) in
  emit (TileBuild tile' generation)
       (set_tiles (alter (λ _, tile') (Tile.key tile)) s1).

(** The body of the loop over [scene.sources] in [loadCoordinate]
    (l. 348-369).  An empty key is falsy. *)
Definition loadSource (coords : Coord.t) (s : State) (source : Source.t) : State :=
  if negb (Source.builds_geometry_tiles source)
     || negb (includesTile E source coords (View.tile_zoom (view s)))
  then s
  else
    match normalizedKey E coords source (View.tile_zoom (view s)) with
    | Some key =>
        if bool_decide (key ≠ "") && negb (hasTile key s) then
          let tile := newTile E source coords (getWorkerForTile coords source s)
                              (baseZoom E (view s) (Coord.z coords)) (view s) in
          buildTile tile (keepTile tile s)
        else s
    | None => s
    end.

(** [loadCoordinate(coords)] (l. 341). *)
Definition loadCoordinate (coords : Coord.t) (s : State) : State :=
  if decide (Coord.z coords ≠ View.center_tile_z (view s)) then s
  else foldl (loadSource coords) s (Scene.sources (scene s)).

(** The coordinates in the order [loadQueuedCoordinates] hands them to
    [loadCoordinate]. *)
Definition dispatch_order (s : State) : list Coord.t :=
  array_sort (center_order s) (queued_coords s).

(** [loadQueuedCoordinates()] (l. 310). *)
Definition loadQueuedCoordinates (s : State) : State :=
  if decide (length (queued_coords s) = 0) then s
  else
    let sorted := dispatch_order s in
    set_queued_coords []
      (foldl (λ s coords, loadCoordinate coords s) (set_queued_coords sorted s) sorted).

(** One step of the second [forEachTile] of [updateProxyTiles], for the
    tile cached under [key]; [proxy] is the flag of the enclosing
    function. *)
Definition proxyStep (sp : State * bool) (key : string) : State * bool :=
  let '(s, proxy) := sp in
  match tiles s !! key with
  | None => sp
  | Some tile =>
      if decide (View.zoom_direction (view s) = 1%Z) then
        if Tile.visible tile && negb (Tile.labeled tile) then
          match getAncestor E (pyramid s) (tiles s) tile with
          | Some parent =>
              (set_tiles (alter (Tile.setProxyFor (Some (Tile.key tile))) parent) s, true)
          | None => sp
          end
        else sp
      else if decide (View.zoom_direction (view s) = (-1)%Z) then
        if Tile.visible tile && negb (Tile.labeled tile) then
          foldl (λ sp' d,
                   (set_tiles (alter (Tile.setProxyFor (Some (Tile.key tile))) d) sp'.1, true))
                sp (getDescendants E (pyramid s) (tiles s) tile)
        else sp
      else sp
  end.

(** [updateProxyTiles()] (l. 190). *)
Definition updateProxyTiles (s : State) : State :=
  if decide (View.zoom_direction (view s) = 0%Z) then s
  else
    let s1 := forEachTile (Tile.setProxyFor None) s in
    let '(s2, proxy) := foldl proxyStep (s1, false) (map fst (map_to_list (tiles s1))) in
    if proxy then s2 else set_view (View.set_zoom_direction 0%Z) s2.

(** [updateTileStates()] (l. 118). *)
Definition updateTileStates (s : State) : Outcome :=
  let s1 := forEachTile (updateVisibility s) s in
  let s2 := loadQueuedCoordinates s1 in
  let s3 := updateProxyTiles s2 in
  pruneTilesForView s3 >>> λ s4,
  Ok (updateLabels (updateActiveStyles (updateRenderableTiles s4))).

(** [updateTilesForView()] (l. 105). *)
Definition updateTilesForView (s : State) : Outcome :=
  let tile_coords := findVisibleTileCoordinates E (view s) in
  updateTileStates
    (foldl (λ s coords,
              set_visible_coords (<[Coord.key coords := coords]> (visible_coords s))
                                 (queueCoordinate coords s))
           (set_visible_coords ∅ s) tile_coords).

(** The end of [buildTileStylesCompleted], reached from every branch that
    does not return early. *)
Definition buildStopIfDone (progress : Progress.t) (key : string) (s : State) : Outcome :=
  Ok (if Progress.done progress then tileBuildStop key s else s).

(** [buildTileStylesCompleted({ tile, progress })] (l. 380).  In the last
    branch the test [if (this.tiles[tile.key])] is on the tile object found
    cached, which is truthy.  The merge updates the cached object, which
    stays in its slot of the cache. *)
Definition buildTileStylesCompleted (tile : Tile.t) (progress : Progress.t) (s : State)
  : Outcome :=
  match tiles s !! Tile.key tile with
  | None =>
      (* removed this tile during load *)
      updateTileStates (emit (AbortBuild tile) s) >>> buildStopIfDone progress (Tile.key tile)
  | Some cached =>
      if decide (Tile.generation tile ≠ Scene.generation (scene s)) then
        (* built with an outdated scene configuration *)
        updateTileStates (emit (AbortBuild tile) s)
          >>> buildStopIfDone progress (Tile.key tile)
      else if decide (Tile.id tile < Tile.id cached)%Z then
        (* from a previously discarded tile: return *)
        Ok (emit (AbortBuild tile) s)
      else
        let merged := merge E cached tile in
        let merged := if Progress.done progress then Tile.set_built true merged else merged in
        let merged := buildMeshes E progress merged in
        updateTileStates
          (emit (BuildMeshes merged) (set_tiles (insert (Tile.key tile) merged) s))
          >>> (λ s', buildStopIfDone progress (Tile.key merged) (emit RequestRedraw s'))
  end.

(** [buildTileError(tile)] (l. 422). *)
Definition buildTileError (tile : Tile.t) (s : State) : State :=
  emit (AbortBuild tile) (forgetTile (Tile.key tile) s).

End Manager.

(** ** Debug accessors

    [getDebugProp], [getDebugSum] and [getDebugAverage] (l. 453-477) read
    [tile.debug[prop]], which the tile record here does not carry: [debug
    tile] stands for the value of the property asked for, [None] where it is
    [null] or [undefined]; the properties are numbers.  [filter] is [None]
    where the argument is not a function. *)
Definition debug_passes (filter : option (Tile.t → bool)) (tile : Tile.t) : bool :=
  match filter with
  | Some f => f tile
  | None => true
  end.

Definition getDebugProp (debug : Tile.t → option Q) (filter : option (Tile.t → bool))
           (s : State) : list Q :=
  foldl (λ vals kt,
           match debug kt.2 with
           | Some v => if debug_passes filter kt.2 then vals ++ [v] else vals
           | None => vals
           end)
        [] (map_to_list (tiles s)).

Definition getDebugSum (debug : Tile.t → option Q) (filter : option (Tile.t → bool))
           (s : State) : Q :=
  foldl (λ sum kt,
           match debug kt.2 with
           | Some v => if debug_passes filter kt.2 then (sum + v)%Q else sum
           | None => sum
           end)
        0%Q (map_to_list (tiles s)).


(** ** Invariants and observations *)

(** Every cached tile is stored under its own key, as [keepTile] stores it. *)
Definition keyed (s : State) : Prop :=
  ∀ k tile, tiles s !! k = Some tile → Tile.key tile = k.

(** Cache/index coupling: a key is in the pyramid exactly when a tile is
    cached under it. *)
Definition coupled (s : State) : Prop :=
  ∀ k, k ∈ pyramid s ↔ is_Some (tiles s !! k).

(** The build tracker has an entry for [key]. *)
Definition building (key : string) (s : State) : Prop :=
  match building_tiles s with
  | Some b => key ∈ b
  | None => False
  end.

(** What the tile class is assumed to guarantee: the key of a tile object
    is never reassigned. *)
Record KeepsKeys (E : Env) : Prop := {
  tileBuild_key : ∀ g tile, Tile.key (tileBuild E g tile) = Tile.key tile;
  merge_key : ∀ cached tile, Tile.key (merge E cached tile) = Tile.key cached;
  buildMeshes_key : ∀ p tile, Tile.key (buildMeshes E p tile) = Tile.key tile }.

(** [tile'] is [tile] up to the two fields the per-frame reconciliation
    sets on cached tiles: [visible] and [proxy_for]. *)
Definition reconciled_from (tile tile' : Tile.t) : Prop :=
  ∃ v p, tile' = Tile.set_visible v (Tile.setProxyFor p tile).

(** Every tile of the cache [m'] is a tile of the cache [m], under the same
    key, up to [visible] and [proxy_for]. *)
Definition cache_reconciled (m m' : gmap string Tile.t) : Prop :=
  ∀ k tile', m' !! k = Some tile' → ∃ tile, m !! k = Some tile ∧ reconciled_from tile tile'.

(** From [s] to [s']: cached tiles are dropped or reconciled, events are
    added, the queue is as it was, and tiles stay under their keys. *)
Definition reconciles (s s' : State) : Prop :=
  cache_reconciled (tiles s) (tiles s')
  ∧ trace s `prefix_of` trace s'
  ∧ queued_coords s' = queued_coords s
  ∧ (keyed s → keyed s').

(** [a] occurs before [b] in [l]. *)
Definition before {A} (a b : A) (l : list A) : Prop :=
  ∃ l1 l2 l3, l = l1 ++ a :: l2 ++ b :: l3.

(** [a] ranks no higher than [b]. *)
Definition by_rank {A} (rank : A → Q) (a b : A) : Prop := (rank a <= rank b)%Q.

(** On the elements of [l] the comparator [cmp] orders by [rank]. *)
Definition ranks {A} (cmp : A → A → Z) (rank : A → Q) (l : list A) : Prop :=
  ∀ a b, a ∈ l → b ∈ l → ((cmp a b <= 0)%Z ↔ by_rank rank a b).

(** The collision tasks scheduled so far. *)
Definition is_TaskAdd (e : Event) : bool :=
  match e with TaskAdd _ => true | _ => false end.

Definition tasks_scheduled (s : State) : nat :=
  length (List.filter is_TaskAdd (trace s)).

(** The collision tasks a call schedules that takes [s] to [s']. *)
Definition tasks_added (s s' : State) : nat :=
  tasks_scheduled s' - tasks_scheduled s.

(** The collision fingerprint [updateLabels] computes in a state: zoom
    bucket, keys of the tiles in build order, mesh timestamps. *)
Definition fingerprint (s : State) : string * list string * list (list (list Z)) :=
  (roundPrecision (View.zoom (view s)) (Collision.zoom_steps (collision s)),
   map Tile.key (label_tiles s),
   meshSetString (label_tiles s)).

(** The fingerprint that [updateLabels] last stored in the collision
    record. *)
Definition stored_fingerprint (s : State)
  : option string * option (list string) * option (list (list (list Z))) :=
  (Collision.zoom (collision s), Collision.tile_keys (collision s),
   Collision.mesh_set (collision s)).

(** The stored fingerprint is the one of the state. *)
Definition fingerprint_stored (s : State) : Prop :=
  stored_fingerprint s
  = (Some (fingerprint s).1.1, Some (fingerprint s).1.2, Some (fingerprint s).2).

(** The manager as its constructor leaves it. *)
Definition initial_state (sc : Scene.t) (v : View.t) : State :=
  mkState sc v ∅ ∅ ∅ [] None [] []
          (Collision.mk None None None 3 None) [].

(** From [s] to [s'] tiles were only added: cached keys stay cached, keys
    under build and indexed keys stay so, every key that is newly cached is
    under build and indexed, and a coupled pyramid stays coupled. *)
Definition load_extends (s s' : State) : Prop :=
  (∀ k, is_Some (tiles s !! k) → is_Some (tiles s' !! k))
  ∧ (∀ k, building k s → building k s')
  ∧ (∀ k, k ∈ pyramid s → k ∈ pyramid s')
  ∧ (∀ k, tiles s !! k = None → is_Some (tiles s' !! k) → building k s' ∧ k ∈ pyramid s')
  ∧ (coupled s → coupled s').

(** The cache [m'] is the cache [m] up to the [proxy_for] of its tiles. *)
Definition reproxied (m m' : gmap string Tile.t) : Prop :=
  ∀ k, match m !! k, m' !! k with
       | Some tile, Some tile' => ∃ p, tile' = Tile.setProxyFor p tile
       | None, None => True
       | _, _ => False
       end.

(** Every proxy relation in the cache [m] points to the key of a tile of
    the cache [m0] that is visible and not labeled. *)
Definition proxies_fresh (m0 m : gmap string Tile.t) : Prop :=
  ∀ k tile' target,
    m !! k = Some tile' → Tile.proxy_for tile' = Some target →
    ∃ k0 tile0, m0 !! k0 = Some tile0 ∧ Tile.key tile0 = target
                ∧ Tile.visible tile0 = true ∧ Tile.labeled tile0 = false.

(** From [s0] to [s] only proxy relations were set, all of them fresh. *)
Definition proxy_inv (s0 s : State) : Prop :=
  view s = view s0 ∧ pyramid s = pyramid s0 ∧ trace s = trace s0
  ∧ building_tiles s = building_tiles s0
  ∧ reproxied (tiles s0) (tiles s) ∧ proxies_fresh (tiles s0) (tiles s).

(** No cached tile is both visible and unlabeled: none needs a proxy. *)
Definition none_needs_proxy (m : gmap string Tile.t) : Prop :=
  ∀ k tile, m !! k = Some tile → Tile.visible tile && negb (Tile.labeled tile) = false.

(** The managers that admission and eviction reach from a new one. *)
Inductive admitted (sc : Scene.t) (v : View.t) : State → Prop :=
| admitted_new : admitted sc v (initial_state sc v)
| admitted_keepTile s tile : admitted sc v s → admitted sc v (keepTile tile s)
| admitted_forgetTile s key : admitted sc v s → admitted sc v (forgetTile key s)
| admitted_removeTile s key s' :
    admitted sc v s → removeTile key s = Ok s' → admitted sc v s'.

(** ** A concrete environment and concrete states

    A Web-Mercator [Geo] in binary64 arithmetic, quadtree descent for
    [isDescendant], keys built from coordinate, source and style zoom, and a
    tile class that keeps keys; used to run the manager on examples. *)
Module Example.

(** The number that the literal [20037508.342789244] denotes. *)
Definition half_circumference_meters : Q :=
  to_double (20037508342789244 # 1000000000).

Definition circumference_meters : Q := to_double (half_circumference_meters * 2).

(** [circumference_meters / Math.pow(2, z)] *)
Definition geo_metersPerTile (z : Z) : Q :=
  to_double (circumference_meters / Qpower 2 z).

(** [x * circumference_meters / Math.pow(2, z) - half_circumference_meters],
    and the same of [y], negated. *)
Definition geo_metersForTile (c : Coord.t) : Q * Q :=
  let along (n : Z) : Q :=
    to_double (to_double (to_double (inject_Z n * circumference_meters)
                          / Qpower 2 (Coord.z c))
               - half_circumference_meters) in
  (along (Coord.x c), (- along (Coord.y c))%Q).

Definition tile_isDescendant (a b : Coord.t) : bool :=
  (Coord.z b <? Coord.z a)%Z
  && (Z.shiftr (Coord.x a) (Coord.z a - Coord.z b) =? Coord.x b)%Z
  && (Z.shiftr (Coord.y a) (Coord.z a - Coord.z b) =? Coord.y b)%Z.

Definition tile_key (c : Coord.t) (source : Source.t) (style_z : Z) : string :=
  Coord.key c +:+ "/" +:+ pretty (Source.id source) +:+ "/" +:+ pretty style_z.

Definition env : Env := {|
  isDescendant := tile_isDescendant;
  normalizedKey := λ c source style_z, Some (tile_key c source style_z);
  includesTile := λ _ _ _, true;
  baseZoom := λ _ z, z;
  findVisibleTileCoordinates := λ _, [];
  newTile := λ source c worker style_z _,
    Tile.mk (tile_key c source style_z) 0 0 c style_z source worker
            false false false false true 0 [] None;
  tileBuild := λ g tile,
    Tile.mk (Tile.key tile) (Tile.id tile) g (Tile.coords tile) (Tile.style_z tile)
            (Tile.source tile) (Tile.worker tile) (Tile.visible tile) (Tile.loaded tile)
            (Tile.built tile) (Tile.labeled tile) (Tile.valid tile) (Tile.build_id tile)
            (Tile.meshes tile) (Tile.proxy_for tile);
  merge := λ cached tile,
    Tile.mk (Tile.key cached) (Tile.id tile) (Tile.generation tile) (Tile.coords cached)
            (Tile.style_z cached) (Tile.source cached) (Tile.worker cached)
            (Tile.visible cached) (Tile.loaded tile) (Tile.built tile)
            (Tile.labeled cached) (Tile.valid tile) (Tile.build_id tile)
            (Tile.meshes tile) (Tile.proxy_for cached);
  buildMeshes := λ _ tile, tile;
  getAncestor := λ _ _ _, None;
  getDescendants := λ _ _ _, [];
  outsideRetention := λ _ _, false;
  metersPerTile := geo_metersPerTile;
  metersForTile := geo_metersForTile |}.

Definition osm : Source.t := Source.mk 0 true true.

Definition coord (x y z : Z) : Coord.t :=
  Coord.mk x y z (pretty x +:+ "/" +:+ pretty y +:+ "/" +:+ pretty z).

(** A view at zoom 10 whose center is the center of tile (5, 3, 10). *)
Definition view10 : View.t :=
  View.mk 10 10 0
          (let m := geo_metersForTile (coord 5 3 10) in
           let h := to_double (geo_metersPerTile 10 / 2) in
           (to_double (m.1 + h), to_double (m.2 - h)))
          10.

Definition scene1 : Scene.t := Scene.mk 1 None [osm] 2.

(** A tile of (5, 3, 10): visible and loaded, with one mesh, not yet built. *)
Definition tile_a : Tile.t :=
  Tile.mk "a" 2 1 (coord 5 3 10) 10 osm (Some 0%Z)
          true true false false true 7 [("lines", [{| created_at := 1000 |}])] None.

(** A built and labeled tile of (6, 3, 10), hidden. *)
Definition tile_b : Tile.t :=
  Tile.mk "b" 3 1 (coord 6 3 10) 10 osm (Some 1%Z)
          false true true true true 8 [("polygons", [{| created_at := 1500 |}])] None.

(** The same tile once built. *)
Definition tile_a_built : Tile.t := Tile.set_built true tile_a.

(** The manager with [tile_a] cached, indexed and under build. *)
Definition cached_a : State :=
  mkState scene1 view10 {[ "a" := tile_a ]} {[ "a" ]} ∅ [] (Some {[ "a" ]}) [] []
          (Collision.mk None None None 3 None) [].

(** A result for key "a" from an earlier tile object (id 1), done. *)
Definition result_old_id : Tile.t :=
  Tile.mk "a" 1 1 (coord 5 3 10) 10 osm (Some 0%Z)
          false true false false true 0 [] None.

(** A result for key "a" built under configuration generation 0. *)
Definition result_old_generation : Tile.t :=
  Tile.mk "a" 2 0 (coord 5 3 10) 10 osm (Some 0%Z)
          false true false false true 0 [] None.

(** A result for the cached tile itself. *)
Definition result_current : Tile.t :=
  Tile.mk "a" 2 1 (coord 5 3 10) 10 osm (Some 0%Z)
          false true false false true 0 [("lines", [{| created_at := 2000 |}])] None.

Definition done : Progress.t := Progress.mk true.

(** [cached_a] after the view moved to tile zoom 11. *)
Definition cached_a_zoomed : State :=
  set_view (λ _, View.mk 11 11 0 (View.center_meters view10) 11) cached_a.

(** The manager during the initial scene build, with the built tile
    renderable. *)
Definition initial_build : State :=
  mkState (Scene.mk 1 (Some {| initial := true |}) [osm] 2) view10
          {[ "a" := tile_a_built ]} {[ "a" ]} ∅ [] None [tile_a_built] ["lines"]
          (Collision.mk None None None 3 None) [].

(** The same during a later rebuild of the scene. *)
Definition later_rebuild : State :=
  mkState (Scene.mk 1 (Some {| initial := false |}) [osm] 2) view10
          {[ "a" := tile_a_built ]} {[ "a" ]} ∅ [] None [tile_a_built] ["lines"]
          (Collision.mk None None None 3 None) [].

(** The manager once the collision task has finished:
    [this.collision.task = null] (l. 175). *)
Definition task_finished (s : State) : State :=
  set_collision
    (Collision.mk (Collision.mesh_set (collision s)) (Collision.tile_keys (collision s))
                  (Collision.zoom (collision s)) (Collision.zoom_steps (collision s)) None)
    s.

(** [initial_build] after its first [updateLabels], when the task has
    finished, the initial build is over, and the view has zoomed on by an
    eighth of a level: the zoom bucket is the same. *)
Definition labelled_then_zoomed : State :=
  mkState scene1 (View.mk (81 # 8) 10 1 (View.center_meters view10) 10)
          {[ "a" := tile_a_built ]} {[ "a" ]} ∅ [] None [tile_a_built] ["lines"]
          (collision (task_finished (updateLabels initial_build)))
          (trace (updateLabels initial_build)).

(** The environment with another [getAncestor]. *)
Definition with_ancestor (f : gset string → gmap string Tile.t → Tile.t → option string)
           (E : Env) : Env := {|
  isDescendant := isDescendant E;
  normalizedKey := normalizedKey E;
  includesTile := includesTile E;
  baseZoom := baseZoom E;
  findVisibleTileCoordinates := findVisibleTileCoordinates E;
  newTile := newTile E;
  tileBuild := tileBuild E;
  merge := merge E;
  buildMeshes := buildMeshes E;
  getAncestor := f;
  getDescendants := getDescendants E;
  outsideRetention := outsideRetention E;
  metersPerTile := metersPerTile E;
  metersForTile := metersForTile E |}.

(** An environment in which tile "b" is the ancestor of tile "a". *)
Definition env_b_over_a : Env :=
  with_ancestor (λ _ _ tile, if decide (Tile.key tile = "a") then Some "b" else None) env.

(** Zooming in, with the unlabeled [tile_a] and with [tile_b], which still
    is a proxy for a tile "old". *)
Definition zooming_in : State :=
  mkState scene1 (View.mk 10 10 1 (View.center_meters view10) 10)
          {[ "a" := tile_a; "b" := Tile.setProxyFor (Some "old") tile_b ]}
          {[ "a"; "b" ]} ∅ [] None [] [] (Collision.mk None None None 3 None) [].

(** Zooming in, with the labeled [tile_b] only, still a proxy. *)
Definition zoomed_in : State :=
  mkState scene1 (View.mk 10 10 1 (View.center_meters view10) 10)
          {[ "b" := Tile.setProxyFor (Some "old") tile_b ]}
          {[ "b" ]} ∅ [] None [] [] (Collision.mk None None None 3 None) [].

(** [initial_build] after its first [updateLabels], the view then zoomed
    to level 11: another zoom bucket, with the task still pending. *)
Definition relabel_pending : State :=
  set_view (λ v, View.mk 11 11 (View.zoom_direction v)
                         (View.center_meters v) (View.center_tile_z v))
           (updateLabels initial_build).

(** A queue left over from zoom 9. *)
Definition queue9 : State :=
  set_queued_coords [coord 50 50 9; coord 2 1 9] (initial_state scene1 view10).

(** A queue at zoom 10: the far coordinate first. *)
Definition queue10 : State :=
  set_queued_coords [coord 100 100 10; coord 5 3 10] (initial_state scene1 view10).

(** A queue at zoom 10 with two coordinates left over from zoom 9. *)
Definition queue_mixed : State :=
  set_queued_coords [coord 3 1 10; coord 2 0 9; coord 3 2 9; coord 6 4 10]
                    (initial_state scene1 view10).

(** The tiles below and above the center tile of the view. *)
Definition queue_tie : State :=
  set_queued_coords [coord 5 4 10; coord 5 2 10] (initial_state scene1 view10).

(** [relabel_pending] once the task of the first call has finished. *)
Definition relabel_ready : State := task_finished relabel_pending.

(** The environment with a view that reports [coords] as visible. *)
Definition with_visible (coords : list Coord.t) (E : Env) : Env := {|
  isDescendant := isDescendant E;
  normalizedKey := normalizedKey E;
  includesTile := includesTile E;
  baseZoom := baseZoom E;
  findVisibleTileCoordinates := λ _, coords;
  newTile := newTile E;
  tileBuild := tileBuild E;
  merge := merge E;
  buildMeshes := buildMeshes E;
  getAncestor := getAncestor E;
  getDescendants := getDescendants E;
  outsideRetention := outsideRetention E;
  metersPerTile := metersPerTile E;
  metersForTile := metersForTile E |}.

(** An environment whose view reports the center tile and its neighbour. *)
Definition env_two_visible : Env :=
  with_visible [coord 5 3 10; coord 6 3 10] env.

(** [cached_a] with a coordinate of zoom 9 still listed as visible. *)
Definition stale_visible : State :=
  mkState scene1 view10 {[ "a" := tile_a ]} {[ "a" ]} {[ "9/9/9" := coord 9 9 9 ]} []
          (Some {[ "a" ]}) [] [] (Collision.mk None None None 3 None) [].

End Example.

(** * Properties *)

(** ** Build tracking and the cache *)

Lemma tiles_checkBuildQueue s : tiles (checkBuildQueue s) = tiles s.
Proof. unfold checkBuildQueue. destruct (building_tiles s); [case_decide|]; done. Qed.

Lemma pyramid_checkBuildQueue s : pyramid (checkBuildQueue s) = pyramid s.
Proof. unfold checkBuildQueue. destruct (building_tiles s); [case_decide|]; done. Qed.

Lemma tiles_tileBuildStop key s : tiles (tileBuildStop key s) = tiles s.
Proof.
  unfold tileBuildStop. destruct (building_tiles s); [|done].
  by rewrite tiles_checkBuildQueue.
Qed.

Lemma pyramid_tileBuildStop key s : pyramid (tileBuildStop key s) = pyramid s.
Proof.
  unfold tileBuildStop. destruct (building_tiles s); [|done].
  by rewrite pyramid_checkBuildQueue.
Qed.

Lemma not_building_checkBuildQueue key s :
  ¬ building key s → ¬ building key (checkBuildQueue s).
Proof.
  unfold checkBuildQueue, building.
  destruct (building_tiles s) eqn:Hb; [case_decide|]; simpl; rewrite ?Hb; tauto.
Qed.

(** After [tileBuildStop(key)] the tracker has no entry for [key]. *)
Lemma not_building_tileBuildStop key s : ¬ building key (tileBuildStop key s).
Proof.
  unfold tileBuildStop. destruct (building_tiles s) as [b|] eqn:Hb.
  - apply not_building_checkBuildQueue. unfold building; simpl. set_solver.
  - unfold building. rewrite Hb. tauto.
Qed.

Lemma queued_coords_tileBuildStop key s :
  queued_coords (tileBuildStop key s) = queued_coords s.
Proof.
  unfold tileBuildStop, checkBuildQueue. destruct (building_tiles s); simpl; [|done].
  by case_decide.
Qed.

(** The events of [tileBuildStop]: none, or the build-done notification. *)
Lemma trace_tileBuildStop key s :
  trace (tileBuildStop key s) = trace s
  ∨ trace (tileBuildStop key s) = trace s ++ [TileManagerBuildDone].
Proof.
  unfold tileBuildStop, checkBuildQueue. destruct (building_tiles s); simpl; [|by left].
  case_decide; simpl; [by right | by left].
Qed.

Lemma tiles_forgetTile key s : tiles (forgetTile key s) = delete key (tiles s).
Proof.
  unfold forgetTile. rewrite tiles_tileBuildStop. by destruct (tiles s !! key).
Qed.

Lemma pyramid_forgetTile key s :
  pyramid (forgetTile key s)
  = match tiles s !! key with
    | Some tile => pyramid s ∖ {[ Tile.key tile ]}
    | None => pyramid s
    end.
Proof.
  unfold forgetTile. rewrite pyramid_tileBuildStop. by destruct (tiles s !! key).
Qed.

Lemma not_building_forgetTile key s : ¬ building key (forgetTile key s).
Proof. apply not_building_tileBuildStop. Qed.

(** ** Cache and index *)

Lemma keyed_keepTile tile s : keyed s → keyed (keepTile tile s).
Proof.
  intros Hk k t'. simpl. rewrite lookup_insert. case_decide.
  - by intros [= <-].
  - apply Hk.
Qed.

Lemma coupled_keepTile tile s : coupled s → coupled (keepTile tile s).
Proof.
  intros Hc k. simpl. unfold Pyramid.addTile.
  rewrite lookup_insert_is_Some, elem_of_union, elem_of_singleton, (Hc k).
  destruct (decide (Tile.key tile = k)); naive_solver.
Qed.

Lemma keyed_forgetTile key s : keyed s → keyed (forgetTile key s).
Proof.
  intros Hk k t'. rewrite tiles_forgetTile. destruct (decide (key = k)) as [->|Hne].
  - by rewrite lookup_delete_eq.
  - rewrite lookup_delete_ne by done. apply Hk.
Qed.

Lemma coupled_forgetTile key s : keyed s → coupled s → coupled (forgetTile key s).
Proof.
  intros Hk Hc k. rewrite tiles_forgetTile, pyramid_forgetTile.
  destruct (tiles s !! key) as [tile|] eqn:Ht.
  - rewrite (Hk _ _ Ht), elem_of_difference, elem_of_singleton, (Hc k).
    rewrite lookup_delete_is_Some. naive_solver.
  - rewrite (Hc k), lookup_delete_is_Some. split; [|naive_solver].
    intros Hs. split; [|done]. intros ->. rewrite Ht in Hs. by destruct Hs.
Qed.

Lemma removeTile_cached key tile s :
  tiles s !! key = Some tile →
  removeTile key s
  = Ok (emit RequestRedraw (forgetTile (Tile.key tile) (emit (TileDestroy tile) s))).
Proof. intros Ht. unfold removeTile. by rewrite Ht. Qed.

Lemma initial_state_keyed sc v : keyed (initial_state sc v).
Proof. intros k t. simpl. by rewrite lookup_empty. Qed.

Lemma initial_state_coupled sc v : coupled (initial_state sc v).
Proof.
  intros k. simpl. rewrite lookup_empty. split; [set_solver|]. by intros [? ?].
Qed.

(** C7. Cache/index coupling.  In a manager whose cache holds each tile
    under its own key and whose pyramid holds exactly the cached keys,
    [keepTile], [forgetTile] and [removeTile] keep it so: afterwards a key
    is in the pyramid if and only if a tile is cached under it.  ([removeTile]
    on a key that is not cached throws and leaves both as they were.) *)
Theorem cache_index_coupling (s : State) :
  keyed s → coupled s →
  (∀ tile, keyed (keepTile tile s) ∧ coupled (keepTile tile s))
  ∧ (∀ key, keyed (forgetTile key s) ∧ coupled (forgetTile key s))
  ∧ (∀ key, match removeTile key s with
            | Ok s' => keyed s' ∧ coupled s'
            | Throw _ s' => s' = s
            end).
Proof.
  intros Hk Hc. split; [|split].
  - intros tile. split; [by apply keyed_keepTile | by apply coupled_keepTile].
  - intros key. split; [by apply keyed_forgetTile | by apply coupled_forgetTile].
  - intros key. unfold removeTile. destruct (tiles s !! key) as [tile|]; [|done].
    split.
    + intros k t'. simpl. apply (keyed_forgetTile _ (emit (TileDestroy tile) s)). exact Hk.
    + intros k. simpl.
      apply (coupled_forgetTile _ (emit (TileDestroy tile) s)); [exact Hk | exact Hc].
Qed.

(** Every manager reached by admission and eviction from a new one has its
    cache and its pyramid coupled. *)
Lemma admitted_coupled sc v s : admitted sc v s → keyed s ∧ coupled s.
Proof.
  induction 1 as [|s tile _ [Hk Hc]|s key _ [Hk Hc]|s key s' _ [Hk Hc] Hrm].
  - split; [apply initial_state_keyed | apply initial_state_coupled].
  - split; [by apply keyed_keepTile | by apply coupled_keepTile].
  - split; [by apply keyed_forgetTile | by apply coupled_forgetTile].
  - unfold removeTile in Hrm. destruct (tiles s !! key) as [tile|]; [|done].
    injection Hrm as <-. split.
    + intros k t'. simpl. apply (keyed_forgetTile _ (emit (TileDestroy tile) s)). exact Hk.
    + intros k. simpl.
      apply (coupled_forgetTile _ (emit (TileDestroy tile) s)); [exact Hk | exact Hc].
Qed.

Lemma cached_a_keyed : keyed Example.cached_a.
Proof.
  intros k t. simpl. rewrite lookup_singleton. case_decide; [|done]. by intros [= <-].
Qed.

Lemma cached_a_coupled : coupled Example.cached_a.
Proof.
  intros k. simpl. rewrite elem_of_singleton, lookup_singleton.
  case_decide; split; try done; naive_solver.
Qed.

Lemma cache_index_coupling_witness :
  keyed Example.cached_a ∧ coupled Example.cached_a
  ∧ coupled (keepTile Example.result_current Example.cached_a)
  ∧ coupled (forgetTile "a" Example.cached_a)
  ∧ match removeTile "a" Example.cached_a with
    | Ok s' => keyed s' ∧ coupled s'
    | Throw _ s' => s' = Example.cached_a
    end.
Proof.
  pose proof (cache_index_coupling Example.cached_a cached_a_keyed cached_a_coupled)
    as (Hkeep & Hforget & Hremove).
  split; [exact cached_a_keyed|]. split; [exact cached_a_coupled|].
  split; [apply Hkeep|]. split; [apply Hforget|]. apply Hremove.
Defined.

(** C10. [removeTile] on a key that is not cached throws: past the guarded
    destroy it reads [tile.key] of the missing tile.  Nothing has been
    changed by then. *)
Theorem removeTile_absent_key_throws (s : State) (key : string) :
  tiles s !! key = None → removeTile key s = Throw TypeError s.
Proof. intros Ht. unfold removeTile. by rewrite Ht. Qed.

Lemma removeTile_absent_key_throws_witness :
  tiles Example.cached_a !! "b" = None
  ∧ removeTile "b" Example.cached_a = Throw TypeError Example.cached_a.
Proof.
  split; [reflexivity|]. apply (removeTile_absent_key_throws Example.cached_a "b"). reflexivity.
Defined.

(** ** The renderable list *)

(** C5, as stated, fails: a tile that is visible and loaded is renderable
    before it is built. *)
Lemma renderable_tiles_not_visible_built :
  ¬ (∀ tile,
       tile ∈ renderable_tiles (updateRenderableTiles Example.cached_a)
       ↔ (∃ k, tiles Example.cached_a !! k = Some tile)
         ∧ Tile.visible tile = true ∧ Tile.built tile = true).
Proof.
  intros H. destruct (H Example.tile_a) as [Hin _].
  assert (Hr : Example.tile_a ∈ renderable_tiles (updateRenderableTiles Example.cached_a)).
  { vm_compute. apply list_elem_of_here. }
  destruct (Hin Hr) as (_ & _ & Hbuilt). discriminate Hbuilt.
Qed.

(** C5, amended.  After [updateRenderableTiles] the renderable list holds
    exactly the cached tiles that are visible and loaded. *)
Theorem renderable_tiles_visible_loaded (s : State) (tile : Tile.t) :
  tile ∈ renderable_tiles (updateRenderableTiles s)
  ↔ ∃ k, tiles s !! k = Some tile ∧ Tile.visible tile = true ∧ Tile.loaded tile = true.
Proof.
  simpl. rewrite list_elem_of_fmap. split.
  - intros ([k t] & -> & Hin). apply list_elem_of_In, filter_In in Hin as [Hin Hf].
    apply list_elem_of_In, elem_of_map_to_list in Hin. simpl in *.
    apply andb_prop in Hf as [? ?]. eauto.
  - intros (k & Hk & Hv & Hl). exists (k, tile). split; [done|].
    apply list_elem_of_In, filter_In. split.
    + by apply list_elem_of_In, elem_of_map_to_list.
    + simpl. by rewrite Hv, Hl.
Qed.

(** ** Label collision debounce *)

(** C4, as stated, fails: during the initial build of the scene
    [updateLabels] records the fingerprint and schedules a task. *)
Lemma updateLabels_runs_in_initial_build :
  Scene.building (scene Example.initial_build) = Some {| initial := true |}
  ∧ collision (updateLabels Example.initial_build) ≠ collision Example.initial_build
  ∧ tasks_added Example.initial_build (updateLabels Example.initial_build) = 1.
Proof. split; [reflexivity|]. split; [|reflexivity]. vm_compute. discriminate. Qed.

(** C4, amended.  While a rebuild of the scene that is not the initial one
    is in progress, [updateLabels] is a no-op: the state, with the stored
    fingerprint and the scheduled tasks, is as it was. *)
Theorem updateLabels_noop_during_rebuild (s : State) (b : Building) :
  Scene.building (scene s) = Some b → initial b = false → updateLabels s = s.
Proof.
  intros Hb Hi. unfold updateLabels. rewrite Hb. destruct b as [i]. simpl in Hi. by subst i.
Qed.

Lemma updateLabels_noop_during_rebuild_witness :
  updateLabels Example.later_rebuild = Example.later_rebuild.
Proof.
  apply (updateLabels_noop_during_rebuild Example.later_rebuild {| initial := false |});
    reflexivity.
Defined.

(** ** Sorting *)

Section Sort.
Context {A : Type} (cmp : A → A → Z).

Lemma sort_insert_Permutation a l : sort_insert cmp a l ≡ₚ a :: l.
Proof.
  induction l as [|b l IH]; simpl; [done|].
  destruct (cmp a b <=? 0)%Z; [done|]. rewrite IH. apply Permutation_swap.
Qed.

Lemma array_sort_Permutation l : array_sort cmp l ≡ₚ l.
Proof.
  induction l as [|a l IH]; simpl; [done|].
  rewrite sort_insert_Permutation. by f_equiv.
Qed.

Lemma length_array_sort l : length (array_sort cmp l) = length l.
Proof. apply Permutation_length, array_sort_Permutation. Qed.

(** Where the comparator orders by a rank, the result is sorted by rank. *)
Context (rank : A → Q).

Lemma sort_insert_sorted a l :
  (∀ b, b ∈ l → ((cmp a b <= 0)%Z ↔ by_rank rank a b)) →
  StronglySorted (by_rank rank) l → StronglySorted (by_rank rank) (sort_insert cmp a l).
Proof.
  induction l as [|b l IH]; intros Hcmp Hs; simpl.
  - repeat constructor.
  - apply StronglySorted_inv in Hs as [Hs Hb].
    destruct (Z.leb_spec (cmp a b) 0) as [Hle|Hgt].
    + assert (Hab : by_rank rank a b) by (apply Hcmp; [left | done]).
      constructor; [by constructor|]. constructor; [done|].
      eapply Forall_impl; [exact Hb|]. intros c Hc. unfold by_rank in *.
      by eapply Qle_trans.
    + assert (Hba : by_rank rank b a).
      { unfold by_rank. apply Qlt_le_weak, Qnot_le_lt. intros Hab.
        apply Hcmp in Hab; [lia | left]. }
      constructor.
      * apply IH; [|done]. intros c Hc. apply Hcmp. by right.
      * rewrite sort_insert_Permutation. by constructor.
  Qed.

Lemma array_sort_sorted l :
  ranks cmp rank l → StronglySorted (by_rank rank) (array_sort cmp l).
Proof.
  induction l as [|a l IH]; intros Hr; simpl; [constructor|].
  apply sort_insert_sorted.
  - intros b Hb. apply Hr; [left|right]. by rewrite <- (array_sort_Permutation l).
  - apply IH. intros b c Hb Hc. apply Hr; by right.
Qed.
End Sort.

Lemma StronglySorted_before {A} (R : A → A → Prop) (l : list A) a b :
  StronglySorted R l → before a b l → R a b.
Proof.
  intros Hs (l1 & l2 & l3 & ->). induction l1 as [|c l1 IH]; simpl in Hs.
  - apply StronglySorted_inv in Hs as [_ Hall].
    rewrite Forall_app, Forall_cons in Hall. tauto.
  - apply StronglySorted_inv in Hs as [Hs _]. by apply IH.
Qed.

Lemma elem_of_before {A} (l : list A) a b :
  a ∈ l → b ∈ l → a ≠ b → before a b l ∨ before b a l.
Proof.
  intros Ha Hb Hne. apply list_elem_of_split in Ha as (l1 & l2 & ->).
  rewrite elem_of_app, elem_of_cons in Hb. destruct Hb as [Hb|[Hb|Hb]].
  - apply list_elem_of_split in Hb as (l3 & l4 & ->). right.
    exists l3, l4, l2. by rewrite <- app_assoc.
  - by subst.
  - apply list_elem_of_split in Hb as (l3 & l4 & ->). left. by exists l1, l3, l4.
Qed.

(** ** Load dispatch order *)

Lemma center_order_ranks (E : Env) (s : State) (z0 : Z) (l : list Coord.t) :
  Forall (λ c, Coord.z c = z0) l →
  ranks (center_order E s) (center_dist E s (half_span E z0)) l.
Proof.
  intros Hz a b Ha Hb. rewrite Forall_forall in Hz.
  unfold center_order, by_rank. rewrite (Hz a Ha), Qle_alt.
  destruct (_ ?= _)%Q; split; intros; (lia || congruence).
Qed.

Lemma loadQueuedCoordinates_dispatch (E : Env) (s : State) :
  loadQueuedCoordinates E s
  = set_queued_coords []
      (foldl (λ s coords, loadCoordinate E coords s)
             (set_queued_coords (dispatch_order E s) s) (dispatch_order E s)).
Proof.
  unfold loadQueuedCoordinates. case_decide as Hl; [|done].
  unfold dispatch_order. destruct s as [? ? ? ? ? q ? ? ? ? ?]. simpl in *.
  by destruct q.
Qed.

(** Whatever the algorithm of the sort: in a permutation of a queue at one
    zoom that is ordered by distance, the nearer of two coordinates comes
    first. *)
Lemma nearest_first_sorted (E : Env) (s : State) (z0 : Z) (l : list Coord.t) a b :
  l ≡ₚ queued_coords s →
  StronglySorted (by_rank (center_dist E s (half_span E z0))) l →
  a ∈ queued_coords s → b ∈ queued_coords s →
  (center_dist E s (half_span E z0) a < center_dist E s (half_span E z0) b)%Q →
  before a b l ∧ ¬ before b a l.
Proof.
  intros Hperm Hsorted Ha Hb Hlt.
  assert (Hnot : ¬ before b a l).
  { intros Hba. apply (StronglySorted_before _ _ _ _ Hsorted) in Hba.
    unfold by_rank in Hba. by apply Qle_not_lt in Hba. }
  split; [|done].
  destruct (elem_of_before l a b) as [?|?]; try done.
  - by rewrite Hperm.
  - by rewrite Hperm.
  - intros ->. by apply Qlt_irrefl in Hlt.
Qed.

(** C6, as stated, fails, in two ways.

    With the queue [3/1/10; 2/0/9; 3/2/9; 6/4/10] and the view centered on
    tile 5/3/10, the coordinate 6/4/10 is nearer to the center than 3/1/10,
    which is at the same zoom, and yet the queue is dispatched as it is,
    3/1/10 first: the comparator takes the tile span from its first operand,
    and with the two coordinates of zoom 9 in between it answers 0 for every
    two neighbours in the queue, in either order of the operands, so a sort
    that compares neighbours finds the queue in order.

    With the queue [5/4/10; 5/2/10] and the same view, the Manhattan
    distance of 5/2/10 to the center is the smaller one, by a nanometer;
    the two distances the comparator computes are the same number, the
    comparator answers 0, and the queue is dispatched as it is, 5/4/10
    first. *)
Lemma nearest_first_fails_mixed_zoom_or_tie :
  (Example.coord 3 1 10 ∈ queued_coords Example.queue_mixed
   ∧ Example.coord 6 4 10 ∈ queued_coords Example.queue_mixed
   ∧ Coord.z (Example.coord 3 1 10) = Coord.z (Example.coord 6 4 10)
   ∧ (center_dist Example.env Example.queue_mixed (half_span Example.env 10)
        (Example.coord 6 4 10)
      < center_dist Example.env Example.queue_mixed (half_span Example.env 10)
          (Example.coord 3 1 10))%Q
   ∧ (manhattan_dist Example.env Example.queue_mixed (half_span Example.env 10)
        (Example.coord 6 4 10)
      < manhattan_dist Example.env Example.queue_mixed (half_span Example.env 10)
          (Example.coord 3 1 10))%Q
   ∧ Forall (λ ab, center_order Example.env Example.queue_mixed ab.1 ab.2 = 0%Z
                   ∧ center_order Example.env Example.queue_mixed ab.2 ab.1 = 0%Z)
            [(Example.coord 3 1 10, Example.coord 2 0 9);
             (Example.coord 2 0 9, Example.coord 3 2 9);
             (Example.coord 3 2 9, Example.coord 6 4 10)]
   ∧ dispatch_order Example.env Example.queue_mixed
     = [Example.coord 3 1 10; Example.coord 2 0 9; Example.coord 3 2 9;
        Example.coord 6 4 10])
  ∧ (Forall (λ c, Coord.z c = 10%Z) (queued_coords Example.queue_tie)
     ∧ (manhattan_dist Example.env Example.queue_tie (half_span Example.env 10)
          (Example.coord 5 2 10)
        < manhattan_dist Example.env Example.queue_tie (half_span Example.env 10)
            (Example.coord 5 4 10))%Q
     ∧ (center_dist Example.env Example.queue_tie (half_span Example.env 10)
          (Example.coord 5 2 10)
        == center_dist Example.env Example.queue_tie (half_span Example.env 10)
             (Example.coord 5 4 10))%Q
     ∧ dispatch_order Example.env Example.queue_tie
       = [Example.coord 5 4 10; Example.coord 5 2 10]).
Proof.
  split.
  - split; [left|]. split; [do 3 right; left|]. split; [reflexivity|].
    split; [vm_compute; reflexivity|]. split; [vm_compute; reflexivity|].
    split; [repeat constructor; vm_compute; reflexivity|].
    vm_compute; reflexivity.
  - split; [repeat constructor|]. split; [vm_compute; reflexivity|].
    split; [vm_compute; reflexivity|]. vm_compute; reflexivity.
Qed.

(** C6, amended.  Nearest first.  [loadQueuedCoordinates] hands to
    [loadCoordinate] a permutation of the queue, every queued coordinate in
    the same call, whatever the zooms.  When the queued coordinates are all
    at one zoom [z0], then for queued [a] and [b] with the distance from the
    view center to the center of [a]'s tile (its origin moved by half a tile
    span), as the comparator computes it in binary64 arithmetic, strictly
    smaller than that of [b], [a] is handed over before [b] and never after
    it. *)
Theorem nearest_first_dispatch (E : Env) (s : State) :
  dispatch_order E s ≡ₚ queued_coords s
  ∧ loadQueuedCoordinates E s
    = set_queued_coords []
        (foldl (λ s coords, loadCoordinate E coords s)
               (set_queued_coords (dispatch_order E s) s) (dispatch_order E s))
  ∧ ∀ z0,
      Forall (λ c, Coord.z c = z0) (queued_coords s) →
      ∀ a b,
        a ∈ queued_coords s → b ∈ queued_coords s →
        (center_dist E s (half_span E z0) a < center_dist E s (half_span E z0) b)%Q →
        before a b (dispatch_order E s) ∧ ¬ before b a (dispatch_order E s).
Proof.
  split; [apply array_sort_Permutation|].
  split; [apply loadQueuedCoordinates_dispatch|].
  intros z0 Hz a b Ha Hb Hlt.
  apply (nearest_first_sorted E s z0); try done.
  - apply array_sort_Permutation.
  - apply array_sort_sorted, center_order_ranks, Hz.
Qed.

Lemma nearest_first_dispatch_witness :
  Forall (λ c, Coord.z c = 10%Z) (queued_coords Example.queue10)
  ∧ (center_dist Example.env Example.queue10 (half_span Example.env 10)
       (Example.coord 5 3 10)
     < center_dist Example.env Example.queue10 (half_span Example.env 10)
         (Example.coord 100 100 10))%Q
  ∧ before (Example.coord 5 3 10) (Example.coord 100 100 10)
           (dispatch_order Example.env Example.queue10).
Proof.
  assert (Hz : Forall (λ c, Coord.z c = 10%Z) (queued_coords Example.queue10)).
  { repeat constructor. }
  assert (Hlt : (center_dist Example.env Example.queue10 (half_span Example.env 10)
                   (Example.coord 5 3 10)
                 < center_dist Example.env Example.queue10 (half_span Example.env 10)
                     (Example.coord 100 100 10))%Q).
  { vm_compute. reflexivity. }
  split; [exact Hz|]. split; [exact Hlt|].
  destruct (nearest_first_dispatch Example.env Example.queue10) as (_ & _ & Horder).
  apply (Horder 10%Z Hz (Example.coord 5 3 10) (Example.coord 100 100 10)).
  - right. left.
  - left.
  - exact Hlt.
Defined.

(** ** Collision memoization *)

Lemma zoom_steps_updateLabels s :
  Collision.zoom_steps (collision (updateLabels s)) = Collision.zoom_steps (collision s).
Proof.
  unfold updateLabels.
  destruct (Scene.building (scene s)) as [[[]]|]; repeat case_decide; try done;
    by destruct (Collision.task (collision s)).
Qed.

(** A call of [updateLabels] schedules at most one task. *)
Lemma updateLabels_tasks_added s : tasks_added s (updateLabels s) ≤ 1.
Proof.
  unfold tasks_added, tasks_scheduled, updateLabels.
  destruct (Scene.building (scene s)) as [[[]]|]; repeat case_decide; try lia;
    destruct (Collision.task (collision s)); simpl; try lia;
    rewrite List.filter_app, length_app; simpl; lia.
Qed.

Lemma label_tiles_length s :
  length (label_tiles s)
  = length (List.filter Tile.built (List.filter Tile.valid (renderable_tiles s))).
Proof. apply length_array_sort. Qed.

(** A call that schedules a task, or that finds the fingerprint of the
    state stored, leaves the fingerprint of the state stored. *)
Lemma updateLabels_stores s :
  tasks_added s (updateLabels s) = 1 ∨ fingerprint_stored s →
  stored_fingerprint (updateLabels s)
  = (Some (fingerprint s).1.1, Some (fingerprint s).1.2, Some (fingerprint s).2).
Proof.
  assert (Hsame : tasks_added s s = 1 ∨ fingerprint_stored s →
                  stored_fingerprint s
                  = (Some (fingerprint s).1.1, Some (fingerprint s).1.2,
                     Some (fingerprint s).2)).
  { intros [Hadd|Hst]; [|exact Hst]. unfold tasks_added in Hadd. lia. }
  unfold updateLabels.
  destruct (Scene.building (scene s)) as [[[]]|]; try exact Hsame.
  all: case_decide; [exact Hsame|].
  all: case_decide; [exact Hsame|].
  all: destruct (Collision.task (collision s)); [exact Hsame|].
  all: intros _; reflexivity.
Qed.

(** In a state whose fingerprint is the stored one, [updateLabels] changes
    nothing, task in flight or not. *)
Lemma updateLabels_stored_noop s :
  stored_fingerprint s
  = (Some (fingerprint s).1.1, Some (fingerprint s).1.2, Some (fingerprint s).2) →
  updateLabels s = s.
Proof.
  unfold stored_fingerprint, fingerprint. simpl. intros [= Hzoom Hkeys Hmesh].
  unfold updateLabels.
  destruct (Scene.building (scene s)) as [[[]]|]; try done.
  all: case_decide; [done|].
  all: case_decide as Hsame; [done|].
  all: destruct Hsame; by rewrite Hzoom, Hkeys, Hmesh.
Qed.

(** C8, as stated, fails in its last clause.  A first call finds a task in
    flight that was scheduled for another zoom bucket, so it neither stores
    the fingerprint nor schedules; when that task has finished, a second
    call with the same fingerprint schedules a task. *)
Lemma second_call_schedules_after_task_finished :
  stored_fingerprint Example.relabel_ready
  = stored_fingerprint (updateLabels Example.relabel_pending)
  ∧ fingerprint Example.relabel_ready = fingerprint Example.relabel_pending
  ∧ tasks_added Example.relabel_pending (updateLabels Example.relabel_pending) = 0
  ∧ tasks_added Example.relabel_ready (updateLabels Example.relabel_ready) = 1.
Proof. repeat split; vm_compute; reflexivity. Qed.

(** C8, amended.  Collision memoization.  Let [updateLabels] be called in
    [s], and then in a state [s'] that has the stored fingerprint the first
    call left and the fingerprint of [s] (zoom bucket, keys of the valid
    built renderable tiles in build order, mesh timestamps); the task of the
    first call may have finished or not, and a rebuild of the scene may have
    begun or ended.  The two calls together schedule at most one task.  If
    the first call scheduled a task, or found the fingerprint stored, the
    second call changes nothing and schedules no task. *)
Theorem updateLabels_memoized (s s' : State) :
  stored_fingerprint s' = stored_fingerprint (updateLabels s) →
  fingerprint s' = fingerprint s →
  tasks_added s (updateLabels s) + tasks_added s' (updateLabels s') ≤ 1
  ∧ (tasks_added s (updateLabels s) = 1 ∨ fingerprint_stored s →
     updateLabels s' = s' ∧ tasks_added s' (updateLabels s') = 0).
Proof.
  intros Hst Hf.
  assert (Hnoop : tasks_added s (updateLabels s) = 1 ∨ fingerprint_stored s →
                  updateLabels s' = s' ∧ tasks_added s' (updateLabels s') = 0).
  { intros Hfirst. apply updateLabels_stores in Hfirst.
    assert (Hs' : updateLabels s' = s').
    { apply updateLabels_stored_noop. by rewrite Hst, Hf. }
    split; [done|]. rewrite Hs'. unfold tasks_added. lia. }
  split; [|done].
  pose proof (updateLabels_tasks_added s) as H1.
  pose proof (updateLabels_tasks_added s') as H2.
  destruct (decide (tasks_added s (updateLabels s) = 1)) as [Hone|Hnone]; [|lia].
  destruct Hnoop as [_ Hzero]; [by left | lia].
Qed.

Lemma updateLabels_memoized_witness :
  (stored_fingerprint Example.labelled_then_zoomed
   = stored_fingerprint (updateLabels Example.initial_build)
   ∧ fingerprint Example.labelled_then_zoomed = fingerprint Example.initial_build)
  ∧ tasks_added Example.initial_build (updateLabels Example.initial_build) = 1
  ∧ Collision.task (collision Example.labelled_then_zoomed) = None
  ∧ Scene.building (scene Example.labelled_then_zoomed) = None
  ∧ updateLabels Example.labelled_then_zoomed = Example.labelled_then_zoomed
  ∧ tasks_added Example.labelled_then_zoomed (updateLabels Example.labelled_then_zoomed) = 0.
Proof.
  assert (Hst : stored_fingerprint Example.labelled_then_zoomed
                = stored_fingerprint (updateLabels Example.initial_build))
    by reflexivity.
  assert (Hf : fingerprint Example.labelled_then_zoomed = fingerprint Example.initial_build)
    by (vm_compute; reflexivity).
  assert (Hone : tasks_added Example.initial_build (updateLabels Example.initial_build) = 1)
    by reflexivity.
  split; [by split|]. split; [exact Hone|]. split; [reflexivity|]. split; [reflexivity|].
  destruct (updateLabels_memoized Example.initial_build Example.labelled_then_zoomed Hst Hf)
    as [_ Hsecond].
  apply Hsecond. left. exact Hone.
Defined.

(** ** Build results *)

(** C1. Identity guard.  A result for a cached key, stamped with the
    current generation, whose id is smaller than the id of the cached tile
    is discarded: its build is aborted and the handler returns.  The cache
    (so the cached tile: nothing merged, [built] as it was), the pyramid and
    the build tracker are as before, and the one event is the abort: no
    meshes are built. *)
Theorem superseded_result_discarded (E : Env) (s : State)
        (tile cached : Tile.t) (progress : Progress.t) :
  tiles s !! Tile.key tile = Some cached →
  Tile.generation tile = Scene.generation (scene s) →
  (Tile.id tile < Tile.id cached)%Z →
  ∃ s', buildTileStylesCompleted E tile progress s = Ok s'
        ∧ tiles s' = tiles s
        ∧ tiles s' !! Tile.key tile = Some cached
        ∧ pyramid s' = pyramid s
        ∧ building_tiles s' = building_tiles s
        ∧ trace s' = trace s ++ [AbortBuild tile].
Proof.
  intros Hcached Hgen Hid. exists (emit (AbortBuild tile) s).
  unfold buildTileStylesCompleted. rewrite Hcached.
  rewrite decide_False by (intros Hne; by apply Hne).
  by rewrite decide_True.
Qed.

Lemma superseded_result_discarded_witness :
  ∃ s', buildTileStylesCompleted Example.env Example.result_old_id Example.done
                                 Example.cached_a = Ok s'
        ∧ tiles s' = tiles Example.cached_a
        ∧ tiles s' !! "a" = Some Example.tile_a
        ∧ pyramid s' = pyramid Example.cached_a
        ∧ building_tiles s' = building_tiles Example.cached_a
        ∧ trace s' = trace Example.cached_a ++ [AbortBuild Example.result_old_id].
Proof.
  apply (superseded_result_discarded Example.env Example.cached_a
           Example.result_old_id Example.tile_a Example.done).
  - reflexivity.
  - reflexivity.
  - reflexivity.
Defined.

(** C9, as stated, fails: on a build error the cached tile is not
    destroyed and no redraw is requested; the events are the build-done
    notification of the emptied tracker and the abort of the result. *)
Lemma buildTileError_no_destroy_no_redraw :
  tiles Example.cached_a !! Tile.key Example.result_current = Some Example.tile_a
  ∧ trace (buildTileError Example.result_current Example.cached_a)
    = [TileManagerBuildDone; AbortBuild Example.result_current]
  ∧ (TileDestroy Example.tile_a
     ∉ trace (buildTileError Example.result_current Example.cached_a))
  ∧ (RequestRedraw ∉ trace (buildTileError Example.result_current Example.cached_a)).
Proof.
  assert (Ht : trace (buildTileError Example.result_current Example.cached_a)
               = [TileManagerBuildDone; AbortBuild Example.result_current])
    by reflexivity.
  split; [reflexivity|]. split; [exact Ht|]. rewrite Ht.
  split; intros Hin; repeat (apply elem_of_cons in Hin as [Hin|Hin]; [discriminate Hin|]);
    by apply elem_of_nil in Hin.
Qed.

(** C9, amended.  On a build error the tile cached under the key of the
    result is forgotten, whatever its id and generation: afterwards nothing
    is cached under the key, the key is not in the pyramid and not in the
    build tracker; then the build of the result is aborted.  No tile is
    destroyed and no redraw is requested: the events are the abort, preceded
    by the build-done notification if the tracker became empty. *)
Theorem buildTileError_forgets_and_aborts (s : State) (tile : Tile.t) :
  keyed s → coupled s →
  tiles (buildTileError tile s) !! Tile.key tile = None
  ∧ (Tile.key tile ∉ pyramid (buildTileError tile s))
  ∧ ¬ building (Tile.key tile) (buildTileError tile s)
  ∧ (trace (buildTileError tile s) = trace s ++ [AbortBuild tile]
     ∨ trace (buildTileError tile s) = trace s ++ [TileManagerBuildDone; AbortBuild tile]).
Proof.
  intros Hk Hc. unfold buildTileError. simpl.
  split; [by rewrite tiles_forgetTile, lookup_delete_eq|]. split; [|split].
  - rewrite pyramid_forgetTile. destruct (tiles s !! Tile.key tile) as [cached|] eqn:Ht.
    + rewrite (Hk _ _ Ht). set_solver.
    + rewrite (Hc (Tile.key tile)), Ht. by intros [? ?].
  - apply (not_building_forgetTile (Tile.key tile) s).
  - unfold forgetTile.
    destruct (trace_tileBuildStop (Tile.key tile)
                (set_tiles (delete (Tile.key tile))
                   match tiles s !! Tile.key tile with
                   | Some cached => set_pyramid (Pyramid.removeTile cached) s
                   | None => s
                   end)) as [Htr|Htr];
      rewrite Htr; destruct (tiles s !! Tile.key tile); simpl; [left|left|right|right];
      by rewrite <- ?app_assoc.
Qed.

Lemma buildTileError_forgets_and_aborts_witness :
  tiles (buildTileError Example.result_current Example.cached_a) !! "a" = None
  ∧ ("a" ∉ pyramid (buildTileError Example.result_current Example.cached_a))
  ∧ ¬ building "a" (buildTileError Example.result_current Example.cached_a)
  ∧ (trace (buildTileError Example.result_current Example.cached_a)
     = trace Example.cached_a ++ [AbortBuild Example.result_current]
     ∨ trace (buildTileError Example.result_current Example.cached_a)
       = trace Example.cached_a ++ [TileManagerBuildDone; AbortBuild Example.result_current]).
Proof.
  exact (buildTileError_forgets_and_aborts Example.cached_a Example.result_current
           cached_a_keyed cached_a_coupled).
Defined.

(** ** The per-frame reconciliation *)

Lemma reconciled_from_refl tile : reconciled_from tile tile.
Proof. exists (Tile.visible tile), (Tile.proxy_for tile). by destruct tile. Qed.

Lemma reconciled_from_trans t1 t2 t3 :
  reconciled_from t1 t2 → reconciled_from t2 t3 → reconciled_from t1 t3.
Proof. intros (v & p & ->) (v' & p' & ->). by exists v', p'. Qed.

Lemma reconciled_from_set_visible v tile : reconciled_from tile (Tile.set_visible v tile).
Proof. exists v, (Tile.proxy_for tile). by destruct tile. Qed.

Lemma reconciled_from_setProxyFor p tile : reconciled_from tile (Tile.setProxyFor p tile).
Proof. exists (Tile.visible tile), p. by destruct tile. Qed.

Lemma reconciled_from_key t t' : reconciled_from t t' → Tile.key t' = Tile.key t.
Proof. by intros (v & p & ->). Qed.

Lemma reconciled_from_built t t' : reconciled_from t t' → Tile.built t' = Tile.built t.
Proof. by intros (v & p & ->). Qed.

Lemma cache_reconciled_refl m : cache_reconciled m m.
Proof. intros k t Ht. exists t. split; [done | apply reconciled_from_refl]. Qed.

Lemma cache_reconciled_trans m1 m2 m3 :
  cache_reconciled m1 m2 → cache_reconciled m2 m3 → cache_reconciled m1 m3.
Proof.
  intros H12 H23 k t3 Ht3. destruct (H23 k t3 Ht3) as (t2 & Ht2 & Hr23).
  destruct (H12 k t2 Ht2) as (t1 & Ht1 & Hr12). exists t1.
  split; [done | by eapply reconciled_from_trans].
Qed.

Lemma cache_reconciled_fmap (f : Tile.t → Tile.t) m :
  (∀ tile, reconciled_from tile (f tile)) → cache_reconciled m (f <$> m).
Proof.
  intros Hf k t'. rewrite lookup_fmap. destruct (m !! k) as [t|]; [|done].
  intros [= <-]. eauto.
Qed.

Lemma cache_reconciled_alter (f : Tile.t → Tile.t) key m :
  (∀ tile, reconciled_from tile (f tile)) → cache_reconciled m (alter f key m).
Proof.
  intros Hf k t'. destruct (decide (key = k)) as [->|Hne].
  - rewrite lookup_alter_eq. destruct (m !! k) as [t|]; [|done]. intros [= <-]. eauto.
  - rewrite lookup_alter_ne by done. intros Ht. exists t'.
    split; [done | apply reconciled_from_refl].
Qed.

Lemma cache_reconciled_delete key m : cache_reconciled m (delete key m).
Proof.
  intros k t'. destruct (decide (key = k)) as [->|Hne].
  - by rewrite lookup_delete_eq.
  - rewrite lookup_delete_ne by done. intros Ht. exists t'.
    split; [done | apply reconciled_from_refl].
Qed.

Lemma keyed_cache_reconciled s s' :
  cache_reconciled (tiles s) (tiles s') → keyed s → keyed s'.
Proof.
  intros Hr Hk k t' Ht'. destruct (Hr k t' Ht') as (t & Ht & Hrt).
  rewrite (reconciled_from_key _ _ Hrt). by apply Hk.
Qed.

Lemma reconciles_refl s : reconciles s s.
Proof. split; [apply cache_reconciled_refl|]. split; [done|]. split; [done | tauto]. Qed.

Lemma reconciles_trans s1 s2 s3 : reconciles s1 s2 → reconciles s2 s3 → reconciles s1 s3.
Proof.
  intros (Hc12 & Ht12 & Hq12 & Hk12) (Hc23 & Ht23 & Hq23 & Hk23). split; [|split; [|split]].
  - by eapply cache_reconciled_trans.
  - by etrans.
  - congruence.
  - tauto.
Qed.

(** A step that reconciles the cache and adds events reconciles the state. *)
Lemma reconciles_intro s s' :
  cache_reconciled (tiles s) (tiles s') → trace s `prefix_of` trace s' →
  queued_coords s' = queued_coords s → reconciles s s'.
Proof.
  intros Hc Ht Hq. split; [done|]. split; [done|]. split; [done|].
  by apply keyed_cache_reconciled.
Qed.

Lemma reconciles_emit e s : reconciles s (emit e s).
Proof.
  apply reconciles_intro; simpl; [apply cache_reconciled_refl | by apply prefix_app_r | done].
Qed.

Lemma reconciles_tileBuildStop key s : reconciles s (tileBuildStop key s).
Proof.
  apply reconciles_intro.
  - rewrite tiles_tileBuildStop. apply cache_reconciled_refl.
  - destruct (trace_tileBuildStop key s) as [-> | ->]; [done | by apply prefix_app_r].
  - apply queued_coords_tileBuildStop.
Qed.

Lemma reconciles_forgetTile key s : reconciles s (forgetTile key s).
Proof.
  unfold forgetTile. eapply reconciles_trans; [|apply reconciles_tileBuildStop].
  apply reconciles_intro; simpl.
  - destruct (tiles s !! key); simpl; apply cache_reconciled_delete.
  - by destruct (tiles s !! key).
  - by destruct (tiles s !! key).
Qed.

Lemma reconciles_forEachTile (f : Tile.t → Tile.t) s :
  (∀ tile, reconciled_from tile (f tile)) → reconciles s (forEachTile f s).
Proof.
  intros Hf. apply reconciles_intro; simpl; [by apply cache_reconciled_fmap | done | done].
Qed.

Lemma reconciles_alter (f : Tile.t → Tile.t) key s :
  (∀ tile, reconciled_from tile (f tile)) → reconciles s (set_tiles (alter f key) s).
Proof.
  intros Hf. apply reconciles_intro; simpl; [by apply cache_reconciled_alter | done | done].
Qed.

Lemma reconciles_updateRenderableTiles s : reconciles s (updateRenderableTiles s).
Proof. apply reconciles_intro; simpl; [apply cache_reconciled_refl | done | done]. Qed.

Lemma reconciles_updateActiveStyles s : reconciles s (updateActiveStyles s).
Proof. apply reconciles_intro; simpl; [apply cache_reconciled_refl | done | done]. Qed.

Lemma reconciles_updateLabels s : reconciles s (updateLabels s).
Proof.
  unfold updateLabels.
  destruct (Scene.building (scene s)) as [[[]]|]; repeat case_decide;
    try apply reconciles_refl;
    destruct (Collision.task (collision s)); try apply reconciles_refl;
    (apply reconciles_intro; simpl;
     [apply cache_reconciled_refl | by apply prefix_app_r | done]).
Qed.

(** Eviction of a cached tile, in a cache that holds tiles under their keys. *)
Lemma removeTile_keyed key s :
  keyed s → is_Some (tiles s !! key) →
  ∃ s', removeTile key s = Ok s' ∧ reconciles s s' ∧ tiles s' = delete key (tiles s).
Proof.
  intros Hk [tile Ht]. rewrite (removeTile_cached _ _ _ Ht). eexists. split; [done|].
  split.
  - eapply reconciles_trans; [apply (reconciles_emit (TileDestroy tile))|].
    eapply reconciles_trans; [apply reconciles_forgetTile | apply reconciles_emit].
  - simpl. rewrite tiles_forgetTile. simpl. by rewrite (Hk _ _ Ht).
Qed.

Lemma foldl_removeTile keys s :
  keyed s → NoDup keys → (∀ k, k ∈ keys → is_Some (tiles s !! k)) →
  ∃ s', foldl (λ o key, o >>> removeTile key) (Ok s) keys = Ok s' ∧ reconciles s s'.
Proof.
  revert s. induction keys as [|key keys IH]; intros s Hk Hnd Hin; simpl.
  - exists s. split; [done | apply reconciles_refl].
  - apply NoDup_cons in Hnd as [Hnotin Hnd].
    destruct (removeTile_keyed key s Hk) as (s1 & -> & Hr1 & Ht1); [apply Hin; left|].
    destruct (IH s1) as (s' & -> & Hr'); [by apply Hr1 | done | |].
    + intros k Hk'. rewrite Ht1, lookup_delete_ne; [apply Hin; by right|].
      by intros ->.
    + exists s'. split; [done | by eapply reconciles_trans].
Qed.

Lemma removeTiles_keys_NoDup {V} (f : string * V → bool) (l : list (string * V)) :
  NoDup l.*1 → NoDup (map fst (List.filter f l)).
Proof.
  induction l as [|[k v] l IH]; simpl; [done|]. intros [Hnotin Hnd]%NoDup_cons.
  destruct (f (k, v)); simpl; [|by apply IH]. apply NoDup_cons. split; [|by apply IH].
  intros Hin. apply Hnotin. apply list_elem_of_fmap in Hin as (kv & -> & Hin).
  apply list_elem_of_In, filter_In in Hin as [Hin _].
  apply list_elem_of_fmap. exists kv. split; [done | by apply list_elem_of_In].
Qed.

(** [removeTiles] completes, whatever the filter, and only drops tiles. *)
Lemma removeTiles_keyed filter s :
  keyed s → ∃ s', removeTiles filter s = Ok s' ∧ reconciles s s'.
Proof.
  intros Hk. unfold removeTiles. apply foldl_removeTile; [done| |].
  - apply removeTiles_keys_NoDup, NoDup_fst_map_to_list.
  - intros k Hin. apply list_elem_of_fmap in Hin as ([k' t] & -> & Hin).
    apply list_elem_of_In, filter_In in Hin as [Hin _].
    apply list_elem_of_In, elem_of_map_to_list in Hin. simpl. by exists t.
Qed.

Section Reconciliation.
Context (E : Env).

Lemma reconciles_proxy_descendants target ds sp :
  reconciles sp.1
    (foldl (λ sp' d, (set_tiles (alter (Tile.setProxyFor target) d) sp'.1, true)) sp ds).1.
Proof.
  revert sp. induction ds as [|d ds IH]; intros sp; simpl; [apply reconciles_refl|].
  eapply reconciles_trans; [|apply IH]. simpl.
  apply reconciles_alter, reconciled_from_setProxyFor.
Qed.

Lemma reconciles_proxyStep sp key : reconciles sp.1 (proxyStep E sp key).1.
Proof.
  destruct sp as [s proxy]. unfold proxyStep.
  destruct (tiles s !! key) as [tile|]; [|apply reconciles_refl].
  repeat case_decide; try apply reconciles_refl;
    destruct (Tile.visible tile && negb (Tile.labeled tile)); try apply reconciles_refl.
  - destruct (getAncestor E _ _ tile); [|apply reconciles_refl]. simpl.
    apply reconciles_alter, reconciled_from_setProxyFor.
  - apply (reconciles_proxy_descendants _ _ (s, proxy)).
Qed.

Lemma reconciles_foldl_proxyStep keys sp :
  reconciles sp.1 (foldl (proxyStep E) sp keys).1.
Proof.
  revert sp. induction keys as [|key keys IH]; intros sp; simpl; [apply reconciles_refl|].
  eapply reconciles_trans; [apply reconciles_proxyStep | apply IH].
Qed.

Lemma reconciles_updateProxyTiles s : reconciles s (updateProxyTiles E s).
Proof.
  unfold updateProxyTiles. case_decide; [apply reconciles_refl|].
  pose proof (reconciles_foldl_proxyStep
                (map fst (map_to_list (tiles (forEachTile (Tile.setProxyFor None) s))))
                (forEachTile (Tile.setProxyFor None) s, false)) as Hfold.
  destruct (foldl _ _ _) as [s2 proxy]. simpl in Hfold.
  eapply reconciles_trans;
    [apply (reconciles_forEachTile (Tile.setProxyFor None)), reconciled_from_setProxyFor|].
  eapply reconciles_trans; [exact Hfold|]. destruct proxy; [apply reconciles_refl|].
  apply reconciles_intro; simpl; [apply cache_reconciled_refl | done | done].
Qed.

Lemma reconciles_updateVisibility s0 s : reconciles s (forEachTile (updateVisibility E s0) s).
Proof. apply reconciles_forEachTile. intros tile. apply reconciled_from_set_visible. Qed.

(** Load dispatch keeps tiles under their keys. *)
Lemma keyed_buildTile tile s : KeepsKeys E → keyed s → keyed (buildTile E tile s).
Proof.
  intros HE Hk k t'. simpl. destruct (decide (Tile.key tile = k)) as [<-|Hne].
  - rewrite lookup_alter_eq. destruct (tiles s !! Tile.key tile); [|done].
    intros [= <-]. by rewrite (tileBuild_key E HE).
  - rewrite lookup_alter_ne by done. apply Hk.
Qed.

Lemma keyed_loadSource coords s source : KeepsKeys E → keyed s → keyed (loadSource E coords s source).
Proof.
  intros HE Hk. unfold loadSource. destruct (_ || _); [done|].
  destruct (normalizedKey E coords source _); [|done]. destruct (_ && _); [|done].
  by apply keyed_buildTile, keyed_keepTile.
Qed.

Lemma keyed_loadCoordinate coords s : KeepsKeys E → keyed s → keyed (loadCoordinate E coords s).
Proof.
  intros HE. unfold loadCoordinate. destruct (decide _) as [|_]; [done|].
  generalize (Scene.sources (scene s)). intros l. revert s.
  induction l as [|source l IH]; intros s Hk; simpl; [done|].
  by apply IH, keyed_loadSource.
Qed.

Lemma keyed_loadQueuedCoordinates s :
  KeepsKeys E → keyed s → keyed (loadQueuedCoordinates E s).
Proof.
  intros HE Hk. rewrite loadQueuedCoordinates_dispatch.
  assert (Hfold : ∀ l s0, keyed s0 → keyed (foldl (λ s coords, loadCoordinate E coords s) s0 l)).
  { induction l as [|c l IH]; intros s0 Hk0; simpl; [done|].
    by apply IH, keyed_loadCoordinate. }
  intros k t. simpl. apply (Hfold _ (set_queued_coords (dispatch_order E s) s)). exact Hk.
Qed.

Lemma loadQueuedCoordinates_empty s :
  queued_coords s = [] → loadQueuedCoordinates E s = s.
Proof. intros Hq. unfold loadQueuedCoordinates. by rewrite Hq. Qed.

Lemma queued_coords_loadQueuedCoordinates s :
  queued_coords (loadQueuedCoordinates E s) = [].
Proof. by rewrite loadQueuedCoordinates_dispatch. Qed.

(** The reconciliation completes in a cache that holds tiles under their
    keys, and leaves such a cache and an empty queue. *)
Lemma updateTileStates_keyed s :
  KeepsKeys E → keyed s →
  ∃ s', updateTileStates E s = Ok s' ∧ keyed s' ∧ queued_coords s' = [].
Proof.
  intros HE Hk. unfold updateTileStates.
  set (s1 := forEachTile (updateVisibility E s) s).
  set (s2 := loadQueuedCoordinates E s1).
  assert (Hk2 : keyed s2).
  { apply keyed_loadQueuedCoordinates; [done|]. by apply (reconciles_updateVisibility s s). }
  pose proof (reconciles_updateProxyTiles s2) as Hr3.
  destruct (removeTiles_keyed (outsideRetention E (view (updateProxyTiles E s2)))
              (updateProxyTiles E s2)) as (s4 & Hprune & Hr4); [by apply Hr3|].
  unfold pruneTilesForView. rewrite Hprune. simpl. eexists. split; [done|].
  assert (Hr : reconciles s2 (updateLabels (updateActiveStyles (updateRenderableTiles s4)))).
  { eapply reconciles_trans; [exact Hr3|]. eapply reconciles_trans; [exact Hr4|].
    eapply reconciles_trans; [apply reconciles_updateRenderableTiles|].
    eapply reconciles_trans; [apply reconciles_updateActiveStyles|].
    apply reconciles_updateLabels. }
  destruct Hr as (_ & _ & Hq & Hkeyed). split; [by apply Hkeyed|].
  rewrite Hq. apply queued_coords_loadQueuedCoordinates.
Qed.

(** With nothing queued, the reconciliation only reconciles cached tiles
    or drops them. *)
Lemma updateTileStates_reconciles s :
  keyed s → queued_coords s = [] →
  ∃ s', updateTileStates E s = Ok s' ∧ reconciles s s'.
Proof.
  intros Hk Hq. unfold updateTileStates.
  rewrite (loadQueuedCoordinates_empty (forEachTile (updateVisibility E s) s)) by done.
  set (s1 := forEachTile (updateVisibility E s) s).
  assert (Hr3 : reconciles s (updateProxyTiles E s1)).
  { eapply reconciles_trans;
      [apply (reconciles_updateVisibility s s) | apply reconciles_updateProxyTiles]. }
  destruct (removeTiles_keyed (outsideRetention E (view (updateProxyTiles E s1)))
              (updateProxyTiles E s1)) as (s4 & Hprune & Hr4); [by apply Hr3|].
  unfold pruneTilesForView. rewrite Hprune. simpl. eexists. split; [done|].
  eapply reconciles_trans; [exact Hr3|]. eapply reconciles_trans; [exact Hr4|].
  eapply reconciles_trans; [apply reconciles_updateRenderableTiles|].
  eapply reconciles_trans; [apply reconciles_updateActiveStyles|].
  apply reconciles_updateLabels.
Qed.
End Reconciliation.

(** ** Stale and finished results *)

Lemma keyed_emit e s : keyed s → keyed (emit e s).
Proof. apply reconciles_emit. Qed.

Lemma keyed_tileBuildStop key s : keyed s → keyed (tileBuildStop key s).
Proof. apply reconciles_tileBuildStop. Qed.

(** The handler completes on every result, keeps tiles under their keys,
    and leaves the queue empty if it was: results arrive between frames,
    when the queue, filled and drained by [updateTilesForView], is empty. *)
Lemma buildTileStylesCompleted_completes (E : Env) (s : State)
      (tile : Tile.t) (progress : Progress.t) :
  KeepsKeys E → keyed s →
  ∃ s', buildTileStylesCompleted E tile progress s = Ok s'
        ∧ keyed s' ∧ (queued_coords s = [] → queued_coords s' = []).
Proof.
  intros HE Hk.
  assert (Hstop : ∀ key s1, keyed s1 → queued_coords s1 = [] →
            ∃ s', buildStopIfDone progress key s1 = Ok s'
                  ∧ keyed s' ∧ (queued_coords s = [] → queued_coords s' = [])).
  { intros key s1 Hk1 Hq1. unfold buildStopIfDone. eexists. split; [done|].
    destruct (Progress.done progress); [|done].
    split; [by apply keyed_tileBuildStop | by rewrite queued_coords_tileBuildStop]. }
  unfold buildTileStylesCompleted.
  destruct (tiles s !! Tile.key tile) as [cached|] eqn:Hcached.
  - case_decide as Hgen.
    + destruct (updateTileStates_keyed E (emit (AbortBuild tile) s)) as (s1 & -> & Hk1 & Hq1);
        [done | by apply keyed_emit |].
      by apply Hstop.
    + case_decide as Hid.
      * eexists. split; [done|]. split; [by apply keyed_emit | done].
      * set (merged := buildMeshes E progress _).
        assert (Hkey : Tile.key merged = Tile.key tile).
        { unfold merged. rewrite (buildMeshes_key E HE).
          destruct (Progress.done progress); simpl; rewrite (merge_key E HE); by apply Hk. }
        destruct (updateTileStates_keyed E
                    (emit (BuildMeshes merged)
                       (set_tiles (insert (Tile.key tile) merged) s)))
          as (s1 & -> & Hk1 & Hq1); [done| |].
        { apply keyed_emit. intros k t'. simpl. rewrite lookup_insert. case_decide.
          - intros [= <-]. by subst k.
          - apply Hk. }
        simpl. apply Hstop; [by apply keyed_emit | done].
  - destruct (updateTileStates_keyed E (emit (AbortBuild tile) s)) as (s1 & -> & Hk1 & Hq1);
      [done | by apply keyed_emit |].
    by apply Hstop.
Qed.

(** A view update completes, keeps tiles under their keys and leaves the
    queue empty. *)
Lemma updateTilesForView_completes (E : Env) (s : State) :
  KeepsKeys E → keyed s →
  ∃ s', updateTilesForView E s = Ok s' ∧ keyed s' ∧ queued_coords s' = [].
Proof.
  intros HE Hk. unfold updateTilesForView. apply updateTileStates_keyed; [done|].
  assert (Hfold : ∀ l s0,
            tiles (foldl (λ s coords,
                            set_visible_coords (<[Coord.key coords := coords]> (visible_coords s))
                                               (queueCoordinate coords s)) s0 l)
            = tiles s0).
  { induction l as [|c l IH]; intros s0; simpl; [done|]. by rewrite IH. }
  intros k t. rewrite Hfold. simpl. apply Hk.
Qed.

Lemma example_env_keeps_keys : KeepsKeys Example.env.
Proof. by split. Qed.

Lemma cached_a_zoomed_keyed : keyed Example.cached_a_zoomed.
Proof. exact cached_a_keyed. Qed.

(** C2, as stated, fails: the handler re-runs the reconciliation, and the
    cached tile, visible before, is no longer visible at the new tile zoom
    of the view. *)
Lemma stale_result_cached_tile_changes :
  tiles Example.cached_a_zoomed !! Tile.key Example.result_old_generation
  = Some Example.tile_a
  ∧ Tile.generation Example.result_old_generation
    ≠ Scene.generation (scene Example.cached_a_zoomed)
  ∧ ∃ s', buildTileStylesCompleted Example.env Example.result_old_generation Example.done
                                   Example.cached_a_zoomed = Ok s'
          ∧ tiles s' !! "a" = Some (Tile.set_visible false Example.tile_a)
          ∧ tiles s' !! "a" ≠ tiles Example.cached_a_zoomed !! "a".
Proof.
  split; [reflexivity|]. split; [discriminate|].
  eexists. split; [vm_compute; reflexivity|]. split; [reflexivity|].
  vm_compute. discriminate.
Qed.

(** C2, amended.  A result for a cached key whose generation differs from
    the scene's is discarded: its build is aborted and nothing of it reaches
    the cached tile, which is not marked built.  The handler then re-runs
    the reconciliation; with no coordinates queued, if a tile is still
    cached under the key afterwards, it is the tile cached before up to its
    [visible] flag and its proxy relation. *)
Theorem stale_generation_result_discarded (E : Env) (s : State)
        (tile cached : Tile.t) (progress : Progress.t) :
  keyed s → queued_coords s = [] →
  tiles s !! Tile.key tile = Some cached →
  Tile.generation tile ≠ Scene.generation (scene s) →
  ∃ s', buildTileStylesCompleted E tile progress s = Ok s'
        ∧ AbortBuild tile ∈ trace s'
        ∧ ∀ tile', tiles s' !! Tile.key tile = Some tile' →
                   reconciled_from cached tile' ∧ Tile.built tile' = Tile.built cached.
Proof.
  intros Hk Hq Hcached Hgen. unfold buildTileStylesCompleted.
  rewrite Hcached, decide_True by done.
  destruct (updateTileStates_reconciles E (emit (AbortBuild tile) s)) as (s1 & -> & Hr1);
    [by apply keyed_emit | done |].
  simpl. eexists. split; [done|].
  assert (Hr : reconciles (emit (AbortBuild tile) s)
                 (if Progress.done progress then tileBuildStop (Tile.key tile) s1 else s1)).
  { destruct (Progress.done progress); [|done].
    eapply reconciles_trans; [exact Hr1 | apply reconciles_tileBuildStop]. }
  destruct Hr as (Hc & Ht & _ & _). split.
  - eapply elem_of_prefix; [|exact Ht]. simpl. rewrite elem_of_app, list_elem_of_singleton.
    by right.
  - intros tile' Ht'. destruct (Hc _ _ Ht') as (tile0 & Ht0 & Hrec). simpl in Ht0.
    rewrite Hcached in Ht0. injection Ht0 as <-.
    split; [done | by apply reconciled_from_built].
Qed.

Lemma stale_generation_result_discarded_witness :
  ∃ s', buildTileStylesCompleted Example.env Example.result_old_generation Example.done
                                 Example.cached_a_zoomed = Ok s'
        ∧ AbortBuild Example.result_old_generation ∈ trace s'
        ∧ ∀ tile', tiles s' !! "a" = Some tile' →
                   reconciled_from Example.tile_a tile'
                   ∧ Tile.built tile' = Tile.built Example.tile_a.
Proof.
  apply (stale_generation_result_discarded Example.env Example.cached_a_zoomed
           Example.result_old_generation Example.tile_a Example.done).
  - exact cached_a_zoomed_keyed.
  - reflexivity.
  - reflexivity.
  - discriminate.
Defined.

(** C3, as stated, fails: a done result whose id is superseded leaves the
    entry of its key in the build tracker. *)
Lemma superseded_result_keeps_tracker_entry :
  Progress.done Example.done = true
  ∧ ∃ s', buildTileStylesCompleted Example.env Example.result_old_id Example.done
                                   Example.cached_a = Ok s'
          ∧ building (Tile.key Example.result_old_id) s'.
Proof.
  split; [reflexivity|]. eexists. split; [vm_compute; reflexivity|].
  unfold building. simpl. set_solver.
Qed.

(** C3, amended.  With tiles cached under their keys and a tile class that
    keeps keys, a done result that is accepted, or whose key is no longer
    cached, or whose generation is stale, has the entry of its key in the
    build tracker cleared when the handler completes, and the handler does
    complete.  A done result whose id is superseded makes the handler return
    before that, with the build tracker as it was. *)
Theorem build_tracker_cleared_when_done (E : Env) (s : State)
        (tile : Tile.t) (progress : Progress.t) :
  KeepsKeys E → keyed s → Progress.done progress = true →
  ((∀ cached, tiles s !! Tile.key tile = Some cached →
              Tile.generation tile = Scene.generation (scene s) →
              (Tile.id cached <= Tile.id tile)%Z) →
   ∃ s', buildTileStylesCompleted E tile progress s = Ok s'
         ∧ ¬ building (Tile.key tile) s')
  ∧ (∀ cached, tiles s !! Tile.key tile = Some cached →
               Tile.generation tile = Scene.generation (scene s) →
               (Tile.id tile < Tile.id cached)%Z →
     ∃ s', buildTileStylesCompleted E tile progress s = Ok s'
           ∧ building_tiles s' = building_tiles s).
Proof.
  intros HE Hk Hdone. unfold buildTileStylesCompleted, buildStopIfDone. rewrite Hdone.
  split.
  - intros Hid. destruct (tiles s !! Tile.key tile) as [cached|] eqn:Hcached.
    + case_decide as Hgen.
      * destruct (updateTileStates_keyed E (emit (AbortBuild tile) s)) as (s1 & -> & _);
          [done | by apply keyed_emit |].
        simpl. eexists. split; [done | apply not_building_tileBuildStop].
      * rewrite decide_False by (specialize (Hid _ eq_refl Hgen); lia).
        set (merged := buildMeshes E progress (Tile.set_built true (merge E cached tile))).
        assert (Hkey : Tile.key merged = Tile.key tile).
        { unfold merged. rewrite (buildMeshes_key E HE). simpl.
          rewrite (merge_key E HE). by apply Hk. }
        destruct (updateTileStates_keyed E
                    (emit (BuildMeshes merged)
                       (set_tiles (insert (Tile.key tile) merged) s))) as (s1 & -> & _);
          [done| |].
        { apply keyed_emit. intros k t'. simpl. rewrite lookup_insert. case_decide.
          - intros [= <-]. by subst k.
          - apply Hk. }
        simpl. eexists. split; [done|]. rewrite Hkey. apply not_building_tileBuildStop.
    + destruct (updateTileStates_keyed E (emit (AbortBuild tile) s)) as (s1 & -> & _);
        [done | by apply keyed_emit |].
      simpl. eexists. split; [done | apply not_building_tileBuildStop].
  - intros cached Hcached Hgen Hid. rewrite Hcached.
    rewrite decide_False by (intros Hne; by apply Hne). rewrite decide_True by done.
    by eexists.
Qed.

Lemma build_tracker_cleared_when_done_witness :
  ∃ s', buildTileStylesCompleted Example.env Example.result_current Example.done
                                 Example.cached_a = Ok s'
        ∧ ¬ building "a" s'.
Proof.
  apply (build_tracker_cleared_when_done Example.env Example.cached_a
           Example.result_current Example.done
           example_env_keeps_keys cached_a_keyed eq_refl).
  intros cached Hcached _. vm_compute in Hcached. injection Hcached as <-. vm_compute.
  discriminate.
Defined.

(** * Further properties of the manager *)

(** ** Worker assignment *)

(** X1. With at least one worker, a tiled source, or a source whose id is
    not negative, gets a worker of the pool: an index from 0 up to the
    number of workers.  For a source that is not tiled the worker is the
    same for every coordinate. *)
Theorem getWorkerForTile_in_pool (s : State) (coords : Coord.t) (source : Source.t) :
  (0 < Scene.workers (scene s))%Z →
  Source.tiled source = true ∨ (0 <= Source.id source)%Z →
  ∃ i, getWorkerForTile coords source s = Some i
       ∧ (0 <= i < Scene.workers (scene s))%Z
       ∧ (Source.tiled source = false →
          ∀ coords', getWorkerForTile coords' source s = Some i).
Proof.
  intros Hn Hsrc. unfold getWorkerForTile.
  destruct (Source.tiled source) eqn:Htiled.
  - pose proof (Z.rem_bound_pos
                  (Z.abs (Coord.x coords + Coord.y coords + Coord.z coords))
                  (Scene.workers (scene s)) (Z.abs_nonneg _) Hn) as Hb.
    eexists. rewrite decide_True by lia. split; [done|]. split; [lia | done].
  - destruct Hsrc as [Ht|Hid]; [done|].
    pose proof (Z.rem_bound_pos _ _ Hid Hn) as Hb.
    eexists. rewrite decide_True by lia. split; [done|]. split; [lia|].
    done.
Qed.

Lemma getWorkerForTile_in_pool_witness :
  ∃ i, getWorkerForTile (Example.coord 5 3 10) Example.osm Example.cached_a = Some i
       ∧ (0 <= i < 2)%Z
       ∧ (Source.tiled Example.osm = false →
          ∀ coords', getWorkerForTile coords' Example.osm Example.cached_a = Some i).
Proof.
  apply (getWorkerForTile_in_pool Example.cached_a (Example.coord 5 3 10) Example.osm).
  - reflexivity.
  - left. reflexivity.
Defined.

(** X2. There is no worker for a tile when the pool is empty, nor for a
    source that is not tiled and whose id is negative and not a multiple of
    the number of workers: the remainder keeps the sign of the id and is no
    index of the pool. *)
Theorem getWorkerForTile_no_worker (s : State) (coords : Coord.t) (source : Source.t) :
  (Scene.workers (scene s) <= 0)%Z
  ∨ (Source.tiled source = false ∧ (Source.id source < 0)%Z
     ∧ Z.rem (Source.id source) (Scene.workers (scene s)) ≠ 0%Z) →
  getWorkerForTile coords source s = None.
Proof.
  intros [Hn|(Htiled & Hid & Hrem)]; unfold getWorkerForTile.
  - by rewrite decide_False by lia.
  - rewrite Htiled. destruct (decide (Scene.workers (scene s) = 0%Z)) as [H0|H0].
    + by rewrite decide_False by lia.
    + pose proof (Z.rem_nonpos (Source.id source) _ H0 ltac:(lia)).
      by rewrite decide_False by lia.
Qed.

Lemma getWorkerForTile_no_worker_witness :
  getWorkerForTile (Example.coord 5 3 10) (Source.mk (-3) false true) Example.cached_a = None.
Proof.
  apply (getWorkerForTile_no_worker Example.cached_a).
  right. split; [reflexivity|]. split; [reflexivity | discriminate].
Defined.

(** ** The build tracker *)

Lemma tileBuildStop_idle key s : building_tiles s = None → tileBuildStop key s = s.
Proof. intros Hb. unfold tileBuildStop. by rewrite Hb. Qed.

Lemma tileBuildStop_drained key b s :
  building_tiles s = Some b → b ⊆ {[ key ]} →
  tileBuildStop key s
  = emit TileManagerBuildDone (set_building_tiles None s).
Proof.
  intros Hb Hsub. unfold tileBuildStop, checkBuildQueue. rewrite Hb. simpl.
  rewrite decide_True by set_solver. done.
Qed.

Lemma tileBuildStop_busy key b s :
  building_tiles s = Some b → ¬ b ⊆ {[ key ]} →
  tileBuildStop key s = set_building_tiles (Some (b ∖ {[ key ]})) s.
Proof.
  intros Hb Hsub. unfold tileBuildStop, checkBuildQueue. rewrite Hb. simpl.
  rewrite decide_False; [done|]. intros Hempty. apply Hsub. intros k Hk.
  destruct (decide (k = key)) as [->|Hne]; [by apply elem_of_singleton|].
  assert (Hin : k ∈ b ∖ {[ key ]}) by (apply elem_of_difference; set_solver).
  rewrite Hempty in Hin. by apply not_elem_of_empty in Hin.
Qed.

(** X3. [tileBuildStop(key)] notifies the scene that the build is done
    exactly when it takes the last key out of the tracker, which it then
    sets to [null]; with other keys under build it only removes the key, and
    with the tracker [null] it does nothing, notification included. *)
Theorem tileBuildStop_notifies_when_drained (key : string) (s : State) :
  match building_tiles s with
  | None => tileBuildStop key s = s
  | Some b =>
      if decide (b ⊆ {[ key ]}) then
        building_tiles (tileBuildStop key s) = None
        ∧ trace (tileBuildStop key s) = trace s ++ [TileManagerBuildDone]
      else
        building_tiles (tileBuildStop key s) = Some (b ∖ {[ key ]})
        ∧ trace (tileBuildStop key s) = trace s
  end.
Proof.
  destruct (building_tiles s) as [b|] eqn:Hb; [|by apply tileBuildStop_idle].
  case_decide as Hsub.
  - rewrite (tileBuildStop_drained key b s Hb Hsub). split; reflexivity.
  - rewrite (tileBuildStop_busy key b s Hb Hsub). split; reflexivity.
Qed.

Lemma tileBuildStop_idempotent key s :
  tileBuildStop key (tileBuildStop key s) = tileBuildStop key s.
Proof.
  destruct (building_tiles s) as [b|] eqn:Hb.
  - destruct (decide (b ⊆ {[ key ]})) as [Hsub|Hsub].
    + rewrite (tileBuildStop_drained key b s Hb Hsub). by apply tileBuildStop_idle.
    + rewrite (tileBuildStop_busy key b s Hb Hsub).
      rewrite (tileBuildStop_busy key (b ∖ {[ key ]})); [| done |].
      * unfold set_building_tiles. simpl.
        replace (b ∖ {[ key ]} ∖ {[ key ]}) with (b ∖ {[ key ]}) by set_solver. done.
      * intros Hsub'. apply Hsub. intros k Hk.
        destruct (decide (k = key)) as [->|Hne]; [set_solver|].
        apply Hsub'. set_solver.
  - by rewrite !(tileBuildStop_idle key s Hb).
Qed.

(** X4. A second [tileBuildStop] for the same key changes nothing: the
    build-done notification of a key is not repeated. *)
Theorem tileBuildStop_twice (key : string) (s : State) :
  tileBuildStop key (tileBuildStop key s) = tileBuildStop key s
  ∧ trace (tileBuildStop key (tileBuildStop key s)) = trace (tileBuildStop key s).
Proof. by rewrite tileBuildStop_idempotent. Qed.

(** X5. Starting and then stopping the build of a key leaves under build
    exactly the other keys that were under build, and the tracker is never
    left as an empty object: it is [null] when nothing is under build. *)
Theorem tileBuildStart_then_stop (key : string) (s : State) :
  (∀ k, building k (tileBuildStop key (tileBuildStart key s)) ↔ k ≠ key ∧ building k s)
  ∧ building key (tileBuildStart key s)
  ∧ building_tiles (tileBuildStart key s) ≠ Some ∅
  ∧ building_tiles (tileBuildStop key (tileBuildStart key s)) ≠ Some ∅.
Proof.
  set (b := default ∅ (building_tiles s)).
  assert (Hstart : building_tiles (tileBuildStart key s) = Some ({[ key ]} ∪ b)) by done.
  assert (Hb : ∀ k, building k s ↔ k ∈ b).
  { intros k. unfold building, b. destruct (building_tiles s); simpl; set_solver. }
  split; [|split; [|split]].
  - intros k. rewrite Hb. unfold building.
    destruct (decide (({[ key ]} ∪ b) ⊆ {[ key ]})) as [Hsub|Hsub].
    + rewrite (tileBuildStop_drained key _ _ Hstart Hsub). simpl. set_solver.
    + rewrite (tileBuildStop_busy key _ _ Hstart Hsub). simpl. set_solver.
  - unfold building. rewrite Hstart. set_solver.
  - rewrite Hstart. intros [= Hempty]. set_solver.
  - destruct (decide (({[ key ]} ∪ b) ⊆ {[ key ]})) as [Hsub|Hsub].
    + by rewrite (tileBuildStop_drained key _ _ Hstart Hsub).
    + rewrite (tileBuildStop_busy key _ _ Hstart Hsub). simpl. intros [= Hempty].
      apply Hsub. clear Hsub Hb Hstart. intros k Hk.
      destruct (decide (k = key)) as [->|Hne]; [by apply elem_of_singleton|].
      assert (Hin : k ∈ ({[ key ]} ∪ b) ∖ {[ key ]}) by (apply elem_of_difference; set_solver).
      rewrite Hempty in Hin. by apply not_elem_of_empty in Hin.
Qed.

(** ** Forgetting and keeping *)

Lemma forgetTile_not_cached key s :
  tiles s !! key = None → forgetTile key s = tileBuildStop key s.
Proof.
  intros Ht. unfold forgetTile. rewrite Ht. destruct s. simpl in *.
  unfold set_tiles. simpl. by rewrite delete_id.
Qed.

(** X6. [forgetTile] is idempotent: forgetting a key a second time changes
    nothing, and forgetting a key that is not cached only stops its build
    tracking. *)
Theorem forgetTile_idempotent (key : string) (s : State) :
  forgetTile key (forgetTile key s) = forgetTile key s
  ∧ (tiles s !! key = None → forgetTile key s = tileBuildStop key s).
Proof.
  split; [|apply forgetTile_not_cached].
  rewrite (forgetTile_not_cached key (forgetTile key s))
    by (by rewrite tiles_forgetTile, lookup_delete_eq).
  unfold forgetTile. apply tileBuildStop_idempotent.
Qed.

(** X7. A tile that was kept is cached under its key, and forgetting it
    again gives back the cache and the pyramid as they were, if its key was
    neither cached nor indexed before. *)
Theorem keepTile_then_forgetTile (tile : Tile.t) (s : State) :
  tiles s !! Tile.key tile = None → Tile.key tile ∉ pyramid s →
  tiles (keepTile tile s) !! Tile.key tile = Some tile
  ∧ hasTile (Tile.key tile) (keepTile tile s) = true
  ∧ tiles (forgetTile (Tile.key tile) (keepTile tile s)) = tiles s
  ∧ pyramid (forgetTile (Tile.key tile) (keepTile tile s)) = pyramid s.
Proof.
  intros Ht Hp.
  assert (Hl : tiles (keepTile tile s) !! Tile.key tile = Some tile)
    by (simpl; apply lookup_insert_eq).
  split; [done|]. split; [by unfold hasTile; rewrite Hl|]. split.
  - rewrite tiles_forgetTile. simpl. rewrite delete_insert_eq. by apply delete_id.
  - rewrite pyramid_forgetTile, Hl. simpl. unfold Pyramid.addTile. set_solver.
Qed.

Lemma keepTile_then_forgetTile_witness :
  tiles (forgetTile "b" (keepTile Example.tile_b Example.cached_a)) = tiles Example.cached_a
  ∧ pyramid (forgetTile "b" (keepTile Example.tile_b Example.cached_a))
    = pyramid Example.cached_a.
Proof.
  apply (keepTile_then_forgetTile Example.tile_b Example.cached_a).
  - reflexivity.
  - simpl. set_solver.
Defined.

(** ** Filtered removal *)

Lemma building_tileBuildStop k key s :
  building k (tileBuildStop key s) → k ≠ key ∧ building k s.
Proof.
  unfold building at 2. destruct (building_tiles s) as [b|] eqn:Hb.
  - destruct (decide (b ⊆ {[ key ]})) as [Hsub|Hsub].
    + by rewrite (tileBuildStop_drained key b s Hb Hsub).
    + rewrite (tileBuildStop_busy key b s Hb Hsub). unfold building. simpl. set_solver.
  - rewrite (tileBuildStop_idle key s Hb). unfold building. by rewrite Hb.
Qed.

Lemma building_forgetTile k key s :
  building k (forgetTile key s) → k ≠ key ∧ building k s.
Proof.
  unfold forgetTile. intros [Hne Hb]%building_tileBuildStop. split; [done|].
  unfold building in *. by destruct (tiles s !! key).
Qed.

Lemma removeTile_step key tile s :
  keyed s → tiles s !! key = Some tile →
  ∃ s1, removeTile key s = Ok s1
        ∧ tiles s1 = delete key (tiles s)
        ∧ pyramid s1 = pyramid s ∖ {[ key ]}
        ∧ trace s `prefix_of` trace s1
        ∧ TileDestroy tile ∈ trace s1
        ∧ (∀ k, building k s1 → k ≠ key ∧ building k s).
Proof.
  intros Hk Ht. rewrite (removeTile_cached _ _ _ Ht), (Hk _ _ Ht). eexists.
  split; [done|].
  pose proof (reconciles_forgetTile key (emit (TileDestroy tile) s)) as (_ & Hpre & _ & _).
  split; [|split; [|split; [|split]]].
  - simpl. by rewrite tiles_forgetTile.
  - simpl. rewrite pyramid_forgetTile. simpl. by rewrite Ht, (Hk _ _ Ht).
  - simpl. etrans; [|apply prefix_app_r; exact Hpre]. by apply prefix_app_r.
  - simpl. apply elem_of_app. left. eapply elem_of_prefix; [|exact Hpre].
    simpl. apply elem_of_app. right. by apply list_elem_of_singleton.
  - intros k Hb. by apply (building_forgetTile k key (emit (TileDestroy tile) s)).
Qed.

Lemma foldl_removeTile_spec keys s :
  keyed s → NoDup keys → (∀ k, k ∈ keys → is_Some (tiles s !! k)) →
  ∃ s', foldl (λ o key, o >>> removeTile key) (Ok s) keys = Ok s'
        ∧ (∀ k, tiles s' !! k = if decide (k ∈ keys) then None else tiles s !! k)
        ∧ (∀ k, k ∈ pyramid s' ↔ k ∈ pyramid s ∧ (k ∉ keys))
        ∧ trace s `prefix_of` trace s'
        ∧ (∀ k tile, k ∈ keys → tiles s !! k = Some tile → TileDestroy tile ∈ trace s')
        ∧ (∀ k, building k s' → (k ∉ keys) ∧ building k s).
Proof.
  revert s. induction keys as [|key keys IH]; intros s Hk Hnd Hin; simpl.
  - exists s. split; [done|]. split.
    { intros k. destruct (decide (k ∈ [])) as [H|_]; [by apply elem_of_nil in H | done]. }
    split; [set_solver|]. split; [done|]. split; [set_solver|]. set_solver.
  - apply NoDup_cons in Hnd as [Hnotin Hnd].
    destruct (Hin key) as [tile Ht]; [left|].
    destruct (removeTile_step key tile s Hk Ht) as (s1 & -> & Ht1 & Hp1 & Hpre1 & Hd1 & Hb1).
    assert (Hk1 : keyed s1).
    { intros k t'. rewrite Ht1. destruct (decide (key = k)) as [->|Hne].
      - by rewrite lookup_delete_eq.
      - rewrite lookup_delete_ne by done. apply Hk. }
    destruct (IH s1 Hk1 Hnd) as (s' & -> & Ht' & Hp' & Hpre' & Hd' & Hb').
    { intros k Hk'. rewrite Ht1, lookup_delete_ne; [apply Hin; by right|]. by intros ->. }
    exists s'. split; [done|]. split; [|split; [|split; [|split]]].
    + intros k. rewrite Ht', Ht1. destruct (decide (k = key)) as [->|Hne].
      * rewrite lookup_delete_eq.
        destruct (decide (key ∈ keys)); destruct (decide (key ∈ key :: keys)) as [|Hn];
          try done; exfalso; apply Hn; left.
      * rewrite lookup_delete_ne by done.
        destruct (decide (k ∈ keys)); [by rewrite decide_True by (by right)|].
        rewrite decide_False; [done|]. by intros [?|?]%elem_of_cons.
    + intros k. rewrite Hp', Hp1, elem_of_difference, elem_of_singleton, not_elem_of_cons.
      tauto.
    + by etrans.
    + intros k t' [->|Hk']%elem_of_cons Hkt.
      * rewrite Ht in Hkt. injection Hkt as <-. by eapply elem_of_prefix.
      * apply (Hd' k t' Hk'). rewrite Ht1, lookup_delete_ne; [done|]. by intros ->.
    + intros k Hbk. destruct (Hb' k Hbk) as [Hnk Hbk1]. destruct (Hb1 k Hbk1) as [Hne Hbs].
      split; [|done]. by intros [?|?]%elem_of_cons.
Qed.

(** What [removeTiles] does in a cache that holds tiles under their keys. *)
Lemma removeTiles_spec filter s :
  keyed s →
  ∃ s', removeTiles filter s = Ok s'
        ∧ (∀ k tile, tiles s' !! k = Some tile ↔ tiles s !! k = Some tile ∧ filter tile = false)
        ∧ (∀ k, k ∈ pyramid s'
                ↔ k ∈ pyramid s ∧ ¬ ∃ tile, tiles s !! k = Some tile ∧ filter tile = true)
        ∧ trace s `prefix_of` trace s'
        ∧ (∀ k tile, tiles s !! k = Some tile → filter tile = true →
                     TileDestroy tile ∈ trace s' ∧ ¬ building k s').
Proof.
  intros Hk. unfold removeTiles.
  set (keys := map fst (List.filter (λ kt, filter kt.2) (map_to_list (tiles s)))).
  assert (Hkeys : ∀ k, k ∈ keys ↔ ∃ tile, tiles s !! k = Some tile ∧ filter tile = true).
  { intros k. unfold keys. rewrite list_elem_of_fmap. split.
    - intros ([k' t] & -> & Hin). apply list_elem_of_In, filter_In in Hin as [Hin Hf].
      apply list_elem_of_In, elem_of_map_to_list in Hin. eauto.
    - intros (t & Ht & Hf). exists (k, t). split; [done|].
      apply list_elem_of_In, filter_In. split; [|done].
      by apply list_elem_of_In, elem_of_map_to_list. }
  destruct (foldl_removeTile_spec keys s Hk) as (s' & -> & Ht' & Hp' & Hpre & Hd & Hb).
  { apply removeTiles_keys_NoDup, NoDup_fst_map_to_list. }
  { intros k (t & Ht & _)%Hkeys. by exists t. }
  exists s'. split; [done|]. split; [|split; [|split]].
  - intros k t. rewrite Ht'. case_decide as Hin.
    + apply Hkeys in Hin as (t0 & Ht0 & Hf0). split; [done|].
      intros [Ht Hf]. rewrite Ht0 in Ht. injection Ht as ->. congruence.
    + split; [|tauto]. intros Ht. split; [done|].
      destruct (filter t) eqn:Hf; [|done]. exfalso. apply Hin, Hkeys. eauto.
  - intros k. by rewrite Hp', Hkeys.
  - done.
  - intros k t Ht Hf. assert (Hin : k ∈ keys) by (apply Hkeys; eauto). split.
    + by apply (Hd k).
    + intros Hbk. by destruct (Hb k Hbk).
Qed.

(** X8. In a cache that holds tiles under their keys, [removeTiles(filter)]
    completes and leaves cached exactly the tiles that do not pass the
    filter, unchanged; every tile that passes is destroyed and its key is no
    longer under build. *)
Theorem removeTiles_removes_matching (filter : Tile.t → bool) (s : State) :
  keyed s →
  ∃ s', removeTiles filter s = Ok s'
        ∧ (∀ k tile, tiles s' !! k = Some tile ↔ tiles s !! k = Some tile ∧ filter tile = false)
        ∧ (∀ k tile, tiles s !! k = Some tile → filter tile = true →
                     TileDestroy tile ∈ trace s' ∧ ¬ building k s').
Proof.
  intros Hk. destruct (removeTiles_spec filter s Hk) as (s' & Hrm & Ht & _ & _ & Hd).
  by exists s'.
Qed.

Lemma removeTiles_removes_matching_witness :
  ∃ s', removeTiles Tile.loaded Example.cached_a = Ok s'
        ∧ (∀ k tile, tiles s' !! k = Some tile
                     ↔ tiles Example.cached_a !! k = Some tile ∧ Tile.loaded tile = false)
        ∧ (∀ k tile, tiles Example.cached_a !! k = Some tile → Tile.loaded tile = true →
                     TileDestroy tile ∈ trace s' ∧ ¬ building k s').
Proof. exact (removeTiles_removes_matching Tile.loaded Example.cached_a cached_a_keyed). Defined.

(** X9. With tiles cached under their keys and the pyramid coupled to the
    cache, [pruneToVisibleTiles] completes and leaves cached, and indexed,
    exactly the tiles that were visible. *)
Theorem pruneToVisibleTiles_keeps_visible (s : State) :
  keyed s → coupled s →
  ∃ s', pruneToVisibleTiles s = Ok s'
        ∧ keyed s' ∧ coupled s'
        ∧ (∀ k tile, tiles s' !! k = Some tile
                     ↔ tiles s !! k = Some tile ∧ Tile.visible tile = true).
Proof.
  intros Hk Hc. unfold pruneToVisibleTiles.
  destruct (removeTiles_spec (λ tile, negb (Tile.visible tile)) s Hk)
    as (s' & -> & Ht & Hp & _ & _).
  exists s'. split; [done|]. split; [|split].
  - intros k t Hkt. apply Ht in Hkt as [Hkt _]. by apply Hk.
  - intros k. rewrite Hp, (Hc k). split.
    + intros [[t Hkt] Hnot]. exists t. apply Ht. split; [done|].
      destruct (negb (Tile.visible t)) eqn:Hv; [|done]. exfalso. apply Hnot. eauto.
    + intros [t Hkt]. apply Ht in Hkt as [Hkt Hv]. split; [by exists t|].
      intros (t0 & Ht0 & Hv0). rewrite Hkt in Ht0. injection Ht0 as <-. congruence.
  - intros k t. rewrite Ht. by rewrite negb_false_iff.
Qed.

Lemma pruneToVisibleTiles_keeps_visible_witness :
  ∃ s', pruneToVisibleTiles (keepTile Example.tile_b Example.cached_a) = Ok s'
        ∧ keyed s' ∧ coupled s'
        ∧ (∀ k tile, tiles s' !! k = Some tile
                     ↔ tiles (keepTile Example.tile_b Example.cached_a) !! k = Some tile
                       ∧ Tile.visible tile = true).
Proof.
  apply (pruneToVisibleTiles_keeps_visible (keepTile Example.tile_b Example.cached_a)).
  - apply keyed_keepTile, cached_a_keyed.
  - apply coupled_keepTile, cached_a_coupled.
Defined.

(** ** Active styles *)

Lemma object_keys_acc (l acc : list string) :
  NoDup acc →
  let r := foldl (λ acc k, if decide (k ∈ acc) then acc else acc ++ [k]) acc l in
  NoDup r ∧ ∀ k, k ∈ r ↔ k ∈ acc ∨ k ∈ l.
Proof.
  revert acc. induction l as [|x l IH]; intros acc Hnd; simpl.
  - split; [done|]. set_solver.
  - case_decide as Hin.
    + destruct (IH acc Hnd) as [Hnd' Hel]. split; [done|]. intros k. rewrite Hel. set_solver.
    + destruct (IH (acc ++ [x])) as [Hnd' Hel].
      { apply NoDup_app. split; [done|]. split; [|apply NoDup_singleton]. set_solver. }
      split; [done|]. intros k. rewrite Hel. set_solver.
Qed.

Lemma elem_of_concat {A} (x : A) (ls : list (list A)) :
  x ∈ concat ls ↔ ∃ l, x ∈ l ∧ l ∈ ls.
Proof.
  induction ls as [|l ls IH]; simpl.
  - split; [by intros ?%elem_of_nil | by intros (l & _ & ?%elem_of_nil)].
  - rewrite elem_of_app, IH. split.
    + intros [Hx|(l' & Hx & Hl')]; [exists l; split; [done | left]|].
      exists l'. split; [done | by right].
    + intros (l' & Hx & [->|Hl']%elem_of_cons); [by left | right; eauto].
Qed.

(** X10. [updateActiveStyles] leaves in [active_styles] each style that
    has meshes in some renderable tile, once, and nothing else. *)
Theorem updateActiveStyles_styles_of_renderable (s : State) :
  NoDup (active_styles (updateActiveStyles s))
  ∧ ∀ style,
      style ∈ active_styles (updateActiveStyles s)
      ↔ ∃ tile meshes, tile ∈ renderable_tiles s ∧ (style, meshes) ∈ Tile.meshes tile.
Proof.
  simpl. unfold object_keys.
  destruct (object_keys_acc
              (concat (map (λ tile, map fst (Tile.meshes tile)) (renderable_tiles s))) [])
    as [Hnd Hel]; [constructor|].
  split; [done|]. intros style. rewrite Hel, elem_of_nil. split.
  - intros [[]|Hin]. apply elem_of_concat in Hin as (names & Hstyle & Hnames).
    apply list_elem_of_fmap in Hnames as (tile & -> & Htile).
    apply list_elem_of_fmap in Hstyle as ([style' meshes] & -> & Hm). eauto.
  - intros (tile & meshes & Htile & Hm). right. apply elem_of_concat.
    exists (map fst (Tile.meshes tile)). split.
    + apply list_elem_of_fmap. by exists (style, meshes).
    + apply list_elem_of_fmap. by exists tile.
Qed.

(** ** Stale queue entries *)

Lemma loadCoordinate_stale (E : Env) coords s :
  Coord.z coords ≠ View.center_tile_z (view s) → loadCoordinate E coords s = s.
Proof. intros Hz. unfold loadCoordinate. by rewrite decide_True. Qed.

(** X11. Queued coordinates that are not at the zoom of the view's center
    tile are dropped: [loadQueuedCoordinates] empties the queue and does
    nothing else, so no tile is created and no build is started. *)
Theorem loadQueuedCoordinates_skips_stale (E : Env) (s : State) :
  Forall (λ c, Coord.z c ≠ View.center_tile_z (view s)) (queued_coords s) →
  loadQueuedCoordinates E s = set_queued_coords [] s.
Proof.
  intros Hz. rewrite loadQueuedCoordinates_dispatch.
  assert (Hsorted : Forall (λ c, Coord.z c ≠ View.center_tile_z (view s)) (dispatch_order E s)).
  { unfold dispatch_order. by rewrite array_sort_Permutation. }
  assert (Hfold : ∀ l s0, view s0 = view s →
            Forall (λ c, Coord.z c ≠ View.center_tile_z (view s)) l →
            foldl (λ s coords, loadCoordinate E coords s) s0 l = s0).
  { induction l as [|c l IH]; intros s0 Hv Hl; simpl; [done|].
    apply Forall_cons in Hl as [Hc Hl].
    rewrite loadCoordinate_stale by (by rewrite Hv). by apply IH. }
  by rewrite Hfold.
Qed.

Lemma loadQueuedCoordinates_skips_stale_witness :
  loadQueuedCoordinates Example.env Example.queue9
  = set_queued_coords [] Example.queue9.
Proof.
  apply (loadQueuedCoordinates_skips_stale Example.env Example.queue9).
  repeat constructor; discriminate.
Defined.

(** ** Load dispatch *)

Lemma load_extends_refl s : load_extends s s.
Proof.
  split; [done|]. split; [done|]. split; [done|]. split; [|done].
  intros k Hn [t Ht]. congruence.
Qed.

Lemma load_extends_trans s1 s2 s3 :
  load_extends s1 s2 → load_extends s2 s3 → load_extends s1 s3.
Proof.
  intros (Ht12 & Hb12 & Hp12 & Hn12 & Hc12) (Ht23 & Hb23 & Hp23 & Hn23 & Hc23).
  split; [auto|]. split; [auto|]. split; [auto|]. split; [|auto].
  intros k Hn1 Hs3. destruct (tiles s2 !! k) as [t2|] eqn:H2.
  - destruct (Hn12 k Hn1) as [Hb Hp]; [by exists t2|]. auto.
  - by apply Hn23.
Qed.

Lemma load_extends_queued q s : load_extends s (set_queued_coords q s).
Proof.
  split; [done|]. split; [done|]. split; [done|]. split; [|done].
  intros k Hn [t Ht]. simpl in Ht. congruence.
Qed.

(** Admitting a new tile and starting its build. *)
Lemma load_extends_keep_build (E : Env) tile s :
  load_extends s (buildTile E tile (keepTile tile s)).
Proof.
  assert (Hsome : ∀ k, is_Some (tiles (buildTile E tile (keepTile tile s)) !! k)
                       ↔ k = Tile.key tile ∨ is_Some (tiles s !! k)).
  { intros k. simpl. rewrite lookup_alter_is_Some, lookup_insert_is_Some.
    destruct (decide (Tile.key tile = k)); naive_solver. }
  assert (Hbuild : ∀ k, building k (buildTile E tile (keepTile tile s))
                        ↔ k = Tile.key tile ∨ building k s).
  { intros k. unfold building. simpl. destruct (building_tiles s); simpl; set_solver. }
  assert (Hpyr : ∀ k, k ∈ pyramid (buildTile E tile (keepTile tile s))
                      ↔ k = Tile.key tile ∨ k ∈ pyramid s).
  { intros k. simpl. unfold Pyramid.addTile. set_solver. }
  split; [|split; [|split; [|split]]].
  - intros k Hk. apply Hsome. by right.
  - intros k Hk. apply Hbuild. by right.
  - intros k Hk. apply Hpyr. by right.
  - intros k Hnone [->|[t Ht]]%Hsome; [|congruence].
    split; [apply Hbuild | apply Hpyr]; by left.
  - intros Hc k. rewrite Hpyr, Hsome, (Hc k). done.
Qed.

Lemma load_extends_loadSource (E : Env) coords s source :
  load_extends s (loadSource E coords s source).
Proof.
  unfold loadSource. destruct (_ || _); [apply load_extends_refl|].
  destruct (normalizedKey E coords source _); [|apply load_extends_refl].
  destruct (_ && _); [|apply load_extends_refl]. apply load_extends_keep_build.
Qed.

Lemma load_extends_loadCoordinate (E : Env) coords s :
  load_extends s (loadCoordinate E coords s).
Proof.
  unfold loadCoordinate. destruct (decide _) as [|_]; [apply load_extends_refl|].
  generalize (Scene.sources (scene s)). intros l. revert s.
  induction l as [|source l IH]; intros s; simpl; [apply load_extends_refl|].
  eapply load_extends_trans; [apply load_extends_loadSource | apply IH].
Qed.

Lemma load_extends_loadQueuedCoordinates (E : Env) s :
  load_extends s (loadQueuedCoordinates E s).
Proof.
  rewrite loadQueuedCoordinates_dispatch.
  assert (Hfold : ∀ l s0,
            load_extends s0 (foldl (λ s coords, loadCoordinate E coords s) s0 l)).
  { induction l as [|c l IH]; intros s0; simpl; [apply load_extends_refl|].
    eapply load_extends_trans; [apply load_extends_loadCoordinate | apply IH]. }
  eapply load_extends_trans; [apply (load_extends_queued (dispatch_order E s))|].
  eapply load_extends_trans; [apply Hfold | apply load_extends_queued].
Qed.

(** X12. Load dispatch only adds tiles.  After [loadQueuedCoordinates]
    every key that was cached is still cached, every key that is newly
    cached is under build and in the pyramid, no build tracking and no index
    entry is lost, a coupled pyramid is still coupled, and the queue is
    empty. *)
Theorem loadQueuedCoordinates_only_adds (E : Env) (s : State) :
  (∀ k, is_Some (tiles s !! k) → is_Some (tiles (loadQueuedCoordinates E s) !! k))
  ∧ (∀ k, tiles s !! k = None → is_Some (tiles (loadQueuedCoordinates E s) !! k) →
          building k (loadQueuedCoordinates E s) ∧ k ∈ pyramid (loadQueuedCoordinates E s))
  ∧ (∀ k, building k s → building k (loadQueuedCoordinates E s))
  ∧ (∀ k, k ∈ pyramid s → k ∈ pyramid (loadQueuedCoordinates E s))
  ∧ (coupled s → coupled (loadQueuedCoordinates E s))
  ∧ queued_coords (loadQueuedCoordinates E s) = [].
Proof.
  destruct (load_extends_loadQueuedCoordinates E s) as (Ht & Hb & Hp & Hn & Hc).
  split; [exact Ht|]. split; [exact Hn|]. split; [exact Hb|]. split; [exact Hp|].
  split; [exact Hc|]. apply queued_coords_loadQueuedCoordinates.
Qed.

(** ** Proxy tiles *)

Lemma reproxied_refl m : reproxied m m.
Proof.
  intros k. destruct (m !! k) as [t|]; [|done]. exists (Tile.proxy_for t). by destruct t.
Qed.

Lemma reproxied_is_Some m m' k : reproxied m m' → is_Some (m' !! k) ↔ is_Some (m !! k).
Proof.
  intros Hr. specialize (Hr k).
  destruct (m !! k) as [t|], (m' !! k) as [t'|]; try done; split; intros _; eauto.
Qed.

Lemma reproxied_lookup m m' k tile' :
  reproxied m m' → m' !! k = Some tile' →
  ∃ tile p, m !! k = Some tile ∧ tile' = Tile.setProxyFor p tile.
Proof.
  intros Hr Ht'. specialize (Hr k). rewrite Ht' in Hr.
  destruct (m !! k) as [t|]; [|done]. destruct Hr as [p ->]. eauto.
Qed.

Lemma reproxied_alter target d m0 m :
  reproxied m0 m → reproxied m0 (alter (Tile.setProxyFor target) d m).
Proof.
  intros Hr k. specialize (Hr k). destruct (decide (d = k)) as [->|Hne].
  - rewrite lookup_alter_eq. destruct (m0 !! k), (m !! k); simpl; try done.
    destruct Hr as [p ->]. by exists target.
  - by rewrite lookup_alter_ne.
Qed.

Lemma reproxied_clear m : reproxied m (Tile.setProxyFor None <$> m).
Proof.
  intros k. rewrite lookup_fmap. destruct (m !! k); simpl; [|done]. by exists None.
Qed.

Lemma proxy_inv_alter s0 s target d :
  proxy_inv s0 s →
  (∃ k0 tile0, tiles s0 !! k0 = Some tile0 ∧ Tile.key tile0 = target
               ∧ Tile.visible tile0 = true ∧ Tile.labeled tile0 = false) →
  proxy_inv s0 (set_tiles (alter (Tile.setProxyFor (Some target)) d) s).
Proof.
  intros (Hv & Hp & Htr & Hb & Hr & Hf) Hfresh.
  split; [done|]. split; [done|]. split; [done|]. split; [done|]. split.
  - simpl. by apply reproxied_alter.
  - intros k t' target'. simpl. destruct (decide (d = k)) as [->|Hne].
    + rewrite lookup_alter_eq. destruct (tiles s !! k) as [t|] eqn:Hk; [|done].
      simpl. by intros [= <-] [= <-].
    + rewrite lookup_alter_ne by done. apply Hf.
Qed.

Lemma proxy_inv_descendants s0 target ds s proxy :
  proxy_inv s0 s →
  (∃ k0 tile0, tiles s0 !! k0 = Some tile0 ∧ Tile.key tile0 = target
               ∧ Tile.visible tile0 = true ∧ Tile.labeled tile0 = false) →
  proxy_inv s0
    (foldl (λ sp' d, (set_tiles (alter (Tile.setProxyFor (Some target)) d) sp'.1, true))
           (s, proxy) ds).1.
Proof.
  revert s proxy. induction ds as [|d ds IH]; intros s proxy Hinv Hfresh; simpl; [done|].
  apply IH; [|done]. by apply proxy_inv_alter.
Qed.

(** A cached tile that is visible and not labeled is a fresh proxy target. *)
Lemma proxy_inv_target s0 s key tile :
  proxy_inv s0 s → tiles s !! key = Some tile →
  Tile.visible tile && negb (Tile.labeled tile) = true →
  ∃ k0 tile0, tiles s0 !! k0 = Some tile0 ∧ Tile.key tile0 = Tile.key tile
              ∧ Tile.visible tile0 = true ∧ Tile.labeled tile0 = false.
Proof.
  intros (_ & _ & _ & _ & Hr & _) Ht Hvis.
  destruct (reproxied_lookup _ _ _ _ Hr Ht) as (t0 & p & Ht0 & ->).
  exists key, t0. apply andb_prop in Hvis as [Hvis Hlab].
  apply negb_true_iff in Hlab. done.
Qed.

Lemma proxy_inv_proxyStep (E : Env) s0 sp key :
  proxy_inv s0 sp.1 → proxy_inv s0 (proxyStep E sp key).1.
Proof.
  destruct sp as [s proxy]. simpl. intros Hinv. unfold proxyStep.
  destruct (tiles s !! key) as [tile|] eqn:Ht; [|done].
  repeat case_decide; try done;
    destruct (Tile.visible tile && negb (Tile.labeled tile)) eqn:Hvis; try done.
  - destruct (getAncestor E _ _ tile); [|done]. simpl.
    apply proxy_inv_alter; [done|]. by eapply proxy_inv_target.
  - apply proxy_inv_descendants; [done|]. by eapply proxy_inv_target.
Qed.

Lemma proxy_inv_foldl (E : Env) s0 keys sp :
  proxy_inv s0 sp.1 → proxy_inv s0 (foldl (proxyStep E) sp keys).1.
Proof.
  revert sp. induction keys as [|key keys IH]; intros sp Hinv; simpl; [done|].
  by apply IH, proxy_inv_proxyStep.
Qed.

Lemma proxy_inv_refl s : proxies_fresh (tiles s) (tiles s) → proxy_inv s s.
Proof. intros Hf. repeat (split; [done|]). split; [apply reproxied_refl | done]. Qed.

(** What [updateProxyTiles] does during a zoom transition. *)
Lemma updateProxyTiles_spec (E : Env) s :
  View.zoom_direction (view s) ≠ 0%Z →
  reproxied (tiles s) (tiles (updateProxyTiles E s))
  ∧ proxies_fresh (tiles s) (tiles (updateProxyTiles E s))
  ∧ pyramid (updateProxyTiles E s) = pyramid s
  ∧ trace (updateProxyTiles E s) = trace s
  ∧ building_tiles (updateProxyTiles E s) = building_tiles s.
Proof.
  intros Hz. unfold updateProxyTiles. rewrite decide_False by done.
  set (s1 := forEachTile (Tile.setProxyFor None) s).
  assert (Hinv1 : proxy_inv s1 s1).
  { apply proxy_inv_refl. intros k t' target. simpl. rewrite lookup_fmap.
    destruct (tiles s !! k); [|done]. by intros [= <-]. }
  pose proof (proxy_inv_foldl E s1 (map fst (map_to_list (tiles s1))) (s1, false) Hinv1)
    as Hfold.
  destruct (foldl _ _ _) as [s2 proxy]. simpl in Hfold.
  destruct Hfold as (Hv & Hp & Htr & Hb & Hr & Hf).
  assert (Hr2 : reproxied (tiles s) (tiles s2)).
  { intros k. specialize (Hr k). simpl in Hr. rewrite lookup_fmap in Hr.
    destruct (tiles s !! k) as [t|], (tiles s2 !! k) as [t2|]; simpl in *; try done.
    all: destruct Hr as [p ->]; by exists p. }
  assert (Hf2 : proxies_fresh (tiles s) (tiles s2)).
  { intros k t' target Ht' Hpt. destruct (Hf k t' target Ht' Hpt) as (k0 & t0 & Ht0 & Hkey).
    simpl in Ht0. rewrite lookup_fmap in Ht0. destruct (tiles s !! k0) as [t|] eqn:Hk0; [|done].
    injection Ht0 as <-. by exists k0, t. }
  destruct proxy; simpl; done.
Qed.

(** X13. During a zoom transition [updateProxyTiles] first clears all
    proxy relations: afterwards each cached tile is the tile it was up to
    [proxy_for], and a tile is a proxy only for a cached tile that is
    visible and not labeled.  The pyramid, the build tracker and the events
    are as before. *)
Theorem updateProxyTiles_proxies_fresh (E : Env) (s : State) :
  View.zoom_direction (view s) ≠ 0%Z →
  reproxied (tiles s) (tiles (updateProxyTiles E s))
  ∧ (∀ k tile' target,
       tiles (updateProxyTiles E s) !! k = Some tile' →
       Tile.proxy_for tile' = Some target →
       ∃ k0 tile0, tiles s !! k0 = Some tile0 ∧ Tile.key tile0 = target
                   ∧ Tile.visible tile0 = true ∧ Tile.labeled tile0 = false)
  ∧ pyramid (updateProxyTiles E s) = pyramid s
  ∧ trace (updateProxyTiles E s) = trace s
  ∧ building_tiles (updateProxyTiles E s) = building_tiles s.
Proof. apply updateProxyTiles_spec. Qed.

Lemma updateProxyTiles_proxies_fresh_witness :
  tiles (updateProxyTiles Example.env_b_over_a Example.zooming_in) !! "b"
  = Some (Tile.setProxyFor (Some "a") Example.tile_b)
  ∧ ∀ k tile' target,
      tiles (updateProxyTiles Example.env_b_over_a Example.zooming_in) !! k = Some tile' →
      Tile.proxy_for tile' = Some target →
      ∃ k0 tile0, tiles Example.zooming_in !! k0 = Some tile0 ∧ Tile.key tile0 = target
                  ∧ Tile.visible tile0 = true ∧ Tile.labeled tile0 = false.
Proof.
  split; [vm_compute; reflexivity|].
  apply (updateProxyTiles_proxies_fresh Example.env_b_over_a Example.zooming_in).
  discriminate.
Defined.

Lemma proxyStep_idle (E : Env) s key :
  (View.zoom_direction (view s) ≠ 1%Z ∧ View.zoom_direction (view s) ≠ (-1)%Z)
  ∨ none_needs_proxy (tiles s) →
  proxyStep E (s, false) key = (s, false).
Proof.
  intros Hidle. unfold proxyStep. destruct (tiles s !! key) as [tile|] eqn:Ht; [|done].
  destruct Hidle as [[H1 H2]|Hnone].
  - by rewrite !decide_False.
  - rewrite (Hnone _ _ Ht). by repeat case_decide.
Qed.

(** X14. During a zoom transition in which no cached tile is both visible
    and unlabeled (or whose direction is neither in nor out),
    [updateProxyTiles] clears every proxy relation and ends the transition:
    the zoom direction of the view is reset to 0. *)
Theorem updateProxyTiles_ends_transition (E : Env) (s : State) :
  View.zoom_direction (view s) ≠ 0%Z →
  (View.zoom_direction (view s) ≠ 1%Z ∧ View.zoom_direction (view s) ≠ (-1)%Z)
  ∨ none_needs_proxy (tiles s) →
  updateProxyTiles E s
  = set_view (View.set_zoom_direction 0) (forEachTile (Tile.setProxyFor None) s).
Proof.
  intros Hz Hidle. unfold updateProxyTiles. rewrite decide_False by done.
  set (s1 := forEachTile (Tile.setProxyFor None) s).
  assert (Hidle1 : (View.zoom_direction (view s1) ≠ 1%Z
                    ∧ View.zoom_direction (view s1) ≠ (-1)%Z)
                   ∨ none_needs_proxy (tiles s1)).
  { destruct Hidle as [?|Hnone]; [by left | right].
    intros k t. simpl. rewrite lookup_fmap. destruct (tiles s !! k) as [t0|] eqn:Hk; [|done].
    intros [= <-]. simpl. by apply (Hnone k). }
  assert (Hfold : ∀ keys, foldl (proxyStep E) (s1, false) keys = (s1, false)).
  { induction keys as [|key keys IH]; [done|].
    change (foldl (proxyStep E) (s1, false) (key :: keys))
      with (foldl (proxyStep E) (proxyStep E (s1, false) key) keys).
    by rewrite proxyStep_idle. }
  by rewrite Hfold.
Qed.

Lemma updateProxyTiles_ends_transition_witness :
  View.zoom_direction (view (updateProxyTiles Example.env_b_over_a Example.zoomed_in)) = 0%Z
  ∧ tiles (updateProxyTiles Example.env_b_over_a Example.zoomed_in) !! "b"
    = Some Example.tile_b.
Proof.
  rewrite (updateProxyTiles_ends_transition Example.env_b_over_a Example.zoomed_in).
  - split; reflexivity.
  - discriminate.
  - right. intros k t. simpl. rewrite lookup_singleton. case_decide; [|done].
    by intros [= <-].
Defined.

(** ** Label layout *)

Lemma StronglySorted_weaken {A} (R R' : A → A → Prop) (l : list A) :
  (∀ a b, R a b → R' a b) → StronglySorted R l → StronglySorted R' l.
Proof.
  intros HR. induction 1 as [|a l Hs IH Hall]; constructor; [done|].
  eapply Forall_impl; [exact Hall | auto].
Qed.

Lemma build_order_ranks (l : list Tile.t) :
  ranks build_order (λ tile, inject_Z (Tile.build_id tile)) l.
Proof.
  intros a b _ _. unfold build_order, by_rank. rewrite <- Zle_Qle.
  destruct (Z.ltb_spec (Tile.build_id a) (Tile.build_id b));
    [|destruct (Z.gtb_spec (Tile.build_id a) (Tile.build_id b))]; lia.
Qed.

(** X15. The tiles handed to the label collision pass are the valid, built
    renderable tiles, each as often as it is in the renderable list, in the
    order of their builds: by ascending [build_id]. *)
Theorem label_tiles_in_build_order (s : State) :
  label_tiles s ≡ₚ List.filter Tile.built (List.filter Tile.valid (renderable_tiles s))
  ∧ StronglySorted (λ a b, (Tile.build_id a <= Tile.build_id b)%Z) (label_tiles s)
  ∧ ∀ tile, tile ∈ label_tiles s
            ↔ tile ∈ renderable_tiles s ∧ Tile.valid tile = true ∧ Tile.built tile = true.
Proof.
  assert (Hperm : label_tiles s
                  ≡ₚ List.filter Tile.built (List.filter Tile.valid (renderable_tiles s)))
    by apply array_sort_Permutation.
  split; [done|]. split.
  - eapply StronglySorted_weaken; [|apply array_sort_sorted, build_order_ranks].
    intros a b. unfold by_rank. by rewrite <- Zle_Qle.
  - intros tile. rewrite Hperm, !list_elem_of_In, !filter_In. tauto.
Qed.

(** X16. While a collision task is in flight [updateLabels] changes
    nothing: it schedules no second task and does not touch the stored
    fingerprint, whatever the tiles and the zoom. *)
Theorem updateLabels_task_in_flight (s : State) (task : CollisionTask) :
  Collision.task (collision s) = Some task → updateLabels s = s.
Proof.
  intros Ht. unfold updateLabels. rewrite Ht.
  destruct (Scene.building (scene s)) as [[[]]|]; by repeat case_decide.
Qed.

Lemma updateLabels_task_in_flight_witness :
  fingerprint Example.relabel_pending ≠ fingerprint Example.initial_build
  ∧ updateLabels Example.relabel_pending = Example.relabel_pending.
Proof.
  split; [vm_compute; discriminate|].
  apply (updateLabels_task_in_flight Example.relabel_pending
           {| task_tiles := label_tiles Example.initial_build |}).
  reflexivity.
Defined.

(** X17. A call of [updateLabels] that changes anything has found no task
    in flight and at least one tile to label; it schedules one task, for the
    tiles in build order, makes it the task in flight, and stores the
    fingerprint of the state, which differed from the stored one.  The
    cache, the pyramid, the queue and the build tracker are never changed. *)
Theorem updateLabels_schedules_with_fingerprint (s : State) :
  tiles (updateLabels s) = tiles s
  ∧ pyramid (updateLabels s) = pyramid s
  ∧ queued_coords (updateLabels s) = queued_coords s
  ∧ building_tiles (updateLabels s) = building_tiles s
  ∧ (updateLabels s = s
     ∨ (Collision.task (collision s) = None
        ∧ label_tiles s ≠ []
        ∧ (Collision.zoom (collision s), Collision.tile_keys (collision s),
           Collision.mesh_set (collision s))
          ≠ (Some (fingerprint s).1.1, Some (fingerprint s).1.2, Some (fingerprint s).2)
        ∧ trace (updateLabels s) = trace s ++ [TaskAdd {| task_tiles := label_tiles s |}]
        ∧ collision (updateLabels s)
          = Collision.mk (Some (fingerprint s).2) (Some (fingerprint s).1.2)
                         (Some (fingerprint s).1.1)
                         (Collision.zoom_steps (collision s))
                         (Some {| task_tiles := label_tiles s |}))).
Proof.
  unfold updateLabels.
  destruct (Scene.building (scene s)) as [[[]]|].
  2: { repeat split; try done. by left. }
  all: case_decide as Hempty; [repeat split; try done; by left|].
  all: case_decide as Hsame; [repeat split; try done; by left|].
  all: destruct (Collision.task (collision s)) eqn:Ht; [repeat split; try done; by left|].
  all: split; [done|]; split; [done|]; split; [done|]; split; [done|]; right.
  all: split; [done|]; split;
    [intros Hnil; apply Hempty; by rewrite <- label_tiles_length, Hnil|].
  all: split; [|done].
  all: intros [= Hz Hk Hm]; apply Hsame; by rewrite Hz, Hk, Hm.
Qed.

(** ** Loading state *)

(** X18. [isLoadingVisibleTiles] holds exactly when some cached tile is
    visible and not built; when it does not hold, every tile that
    [updateRenderableTiles] puts in the renderable list is built. *)
Theorem isLoadingVisibleTiles_spec (s : State) :
  (isLoadingVisibleTiles s = true
   ↔ ∃ k tile, tiles s !! k = Some tile ∧ Tile.visible tile = true ∧ Tile.built tile = false)
  ∧ (isLoadingVisibleTiles s = false →
     ∀ tile, tile ∈ renderable_tiles (updateRenderableTiles s) → Tile.built tile = true).
Proof.
  assert (Hload : isLoadingVisibleTiles s = true
                  ↔ ∃ k tile, tiles s !! k = Some tile ∧ Tile.visible tile = true
                              ∧ Tile.built tile = false).
  { unfold isLoadingVisibleTiles. rewrite existsb_exists. split.
    - intros ([k t] & Hin & Hvb). apply list_elem_of_In, elem_of_map_to_list in Hin.
      apply andb_prop in Hvb as [Hv Hb]. apply negb_true_iff in Hb. eauto.
    - intros (k & t & Hkt & Hv & Hb). exists (k, t). split.
      + by apply list_elem_of_In, elem_of_map_to_list.
      + simpl. by rewrite Hv, Hb. }
  split; [done|]. intros Hnot tile Hin. simpl in Hin.
  apply list_elem_of_fmap in Hin as ([k t] & -> & Hin).
  apply list_elem_of_In, filter_In in Hin as [Hin Hf].
  apply list_elem_of_In, elem_of_map_to_list in Hin. simpl in *.
  apply andb_prop in Hf as [Hv _]. destruct (Tile.built t) eqn:Hb; [done|].
  assert (isLoadingVisibleTiles s = true) by (apply Hload; eauto). congruence.
Qed.

(** ** Coupling through the reconciliation *)

Lemma coupled_same s s' :
  (∀ k, is_Some (tiles s' !! k) ↔ is_Some (tiles s !! k)) → pyramid s' = pyramid s →
  coupled s → coupled s'.
Proof. intros Ht Hp Hc k. by rewrite Hp, Ht. Qed.

Lemma coupled_forEachTile f s : coupled s → coupled (forEachTile f s).
Proof.
  apply coupled_same; [|done]. intros k. simpl. rewrite lookup_fmap.
  by rewrite fmap_is_Some.
Qed.

Lemma coupled_updateProxyTiles (E : Env) s : coupled s → coupled (updateProxyTiles E s).
Proof.
  destruct (decide (View.zoom_direction (view s) = 0%Z)) as [Hz|Hz].
  - unfold updateProxyTiles. by rewrite decide_True.
  - destruct (updateProxyTiles_spec E s Hz) as (Hr & _ & Hp & _).
    apply coupled_same; [|done]. intros k. by apply reproxied_is_Some.
Qed.

Lemma removeTiles_coupled filter s :
  keyed s → coupled s →
  ∃ s', removeTiles filter s = Ok s' ∧ keyed s' ∧ coupled s' ∧ reconciles s s'.
Proof.
  intros Hk Hc. destruct (removeTiles_keyed filter s Hk) as (s0 & Hrm0 & Hrec).
  destruct (removeTiles_spec filter s Hk) as (s' & Hrm & Ht & Hp & _ & _).
  assert (s0 = s') as -> by congruence.
  exists s'. split; [done|]. split; [by apply Hrec|]. split; [|done].
  intros k. rewrite Hp, (Hc k). split.
  - intros [[t Hkt] Hnot]. exists t. apply Ht. split; [done|].
    destruct (filter t) eqn:Hf; [|done]. exfalso. apply Hnot. eauto.
  - intros [t Hkt]. apply Ht in Hkt as [Hkt Hf]. split; [by exists t|].
    intros (t0 & Ht0 & Hf0). rewrite Hkt in Ht0. injection Ht0 as <-. congruence.
Qed.

Lemma updateLabels_frame s :
  tiles (updateLabels s) = tiles s ∧ pyramid (updateLabels s) = pyramid s.
Proof.
  unfold updateLabels.
  destruct (Scene.building (scene s)) as [[[]]|]; repeat case_decide; try done;
    by destruct (Collision.task (collision s)).
Qed.

Lemma updateTileStates_coupled (E : Env) s :
  KeepsKeys E → keyed s → coupled s →
  ∃ s', updateTileStates E s = Ok s' ∧ keyed s' ∧ coupled s' ∧ queued_coords s' = [].
Proof.
  intros HE Hk Hc. destruct (updateTileStates_keyed E s HE Hk) as (s' & Hrun & Hk' & Hq').
  exists s'. split; [done|]. split; [done|]. split; [|done].
  revert Hrun. unfold updateTileStates.
  set (s2 := loadQueuedCoordinates E (forEachTile (updateVisibility E s) s)).
  assert (Hk2 : keyed s2).
  { apply keyed_loadQueuedCoordinates; [done|]. by apply (reconciles_updateVisibility E s s). }
  assert (Hc2 : coupled s2).
  { apply load_extends_loadQueuedCoordinates. by apply coupled_forEachTile. }
  destruct (removeTiles_coupled (outsideRetention E (view (updateProxyTiles E s2)))
              (updateProxyTiles E s2)) as (s4 & Hprune & _ & Hc4 & _).
  { by apply reconciles_updateProxyTiles. }
  { by apply coupled_updateProxyTiles. }
  unfold pruneTilesForView. rewrite Hprune. simpl. intros [= <-].
  destruct (updateLabels_frame (updateActiveStyles (updateRenderableTiles s4))) as [Ht Hp].
  revert Hc4. apply coupled_same; [|done]. intros k. by rewrite Ht.
Qed.

(** X19. The per-frame reconciliation keeps the cache and the pyramid
    coupled.  With a tile class that keeps keys, tiles cached under their
    keys and a coupled pyramid, [updateTileStates] and [updateTilesForView]
    complete, and afterwards tiles are cached under their keys, a key is in
    the pyramid exactly when a tile is cached under it, and the queue is
    empty. *)
Theorem reconciliation_keeps_coupling (E : Env) (s : State) :
  KeepsKeys E → keyed s → coupled s →
  (∃ s', updateTileStates E s = Ok s' ∧ keyed s' ∧ coupled s' ∧ queued_coords s' = [])
  ∧ (∃ s', updateTilesForView E s = Ok s' ∧ keyed s' ∧ coupled s' ∧ queued_coords s' = []).
Proof.
  intros HE Hk Hc. split; [by apply updateTileStates_coupled|].
  unfold updateTilesForView.
  assert (Hfold : ∀ l s0,
            let s1 := foldl (λ s coords,
                               set_visible_coords
                                 (<[Coord.key coords := coords]> (visible_coords s))
                                 (queueCoordinate coords s)) s0 l in
            tiles s1 = tiles s0 ∧ pyramid s1 = pyramid s0).
  { induction l as [|c l IH]; intros s0; simpl; [done|].
    destruct (IH (set_visible_coords (<[Coord.key c := c]> (visible_coords s0))
                    (queueCoordinate c s0))) as [Ht Hp]. by rewrite Ht, Hp. }
  destruct (Hfold (findVisibleTileCoordinates E (view s)) (set_visible_coords ∅ s))
    as [Ht Hp].
  apply updateTileStates_coupled; [done| |].
  - intros k t. rewrite Ht. apply Hk.
  - intros k. rewrite Hp, Ht. apply Hc.
Qed.

Lemma reconciliation_keeps_coupling_witness :
  ∃ s', updateTileStates Example.env Example.cached_a = Ok s'
        ∧ keyed s' ∧ coupled s' ∧ queued_coords s' = [].
Proof.
  apply (reconciliation_keeps_coupling Example.env Example.cached_a
           example_env_keeps_keys cached_a_keyed cached_a_coupled).
Defined.

(** X20. The handlers of build results keep the cache and the pyramid
    coupled: with a tile class that keeps keys, tiles cached under their
    keys and a coupled pyramid, [buildTileStylesCompleted] completes on
    every result and progress, and after it, as after [buildTileError],
    tiles are cached under their keys and the pyramid is coupled. *)
Theorem result_handlers_keep_coupling (E : Env) (s : State)
        (tile : Tile.t) (progress : Progress.t) :
  KeepsKeys E → keyed s → coupled s →
  (∃ s', buildTileStylesCompleted E tile progress s = Ok s' ∧ keyed s' ∧ coupled s')
  ∧ keyed (buildTileError tile s) ∧ coupled (buildTileError tile s).
Proof.
  intros HE Hk Hc. split; [|split].
  - assert (Hstop : ∀ key s1, keyed s1 → coupled s1 →
              ∃ s', buildStopIfDone progress key s1 = Ok s' ∧ keyed s' ∧ coupled s').
    { intros key s1 Hk1 Hc1. unfold buildStopIfDone. eexists. split; [done|].
      destruct (Progress.done progress); [|done]. split; [by apply keyed_tileBuildStop|].
      revert Hc1. apply coupled_same; [|by rewrite pyramid_tileBuildStop].
      intros k. by rewrite tiles_tileBuildStop. }
    assert (Hemit : ∀ e s1, coupled s1 → coupled (emit e s1)) by done.
    unfold buildTileStylesCompleted.
    destruct (tiles s !! Tile.key tile) as [cached|] eqn:Hcached.
    + case_decide as Hgen.
      * destruct (updateTileStates_coupled E (emit (AbortBuild tile) s))
          as (s1 & -> & Hk1 & Hc1 & _); [done | by apply keyed_emit | by apply Hemit |].
        by apply Hstop.
      * case_decide as Hid.
        -- eexists. split; [done|]. split; [by apply keyed_emit | by apply Hemit].
        -- set (merged := buildMeshes E progress _).
           assert (Hkey : Tile.key merged = Tile.key tile).
           { unfold merged. rewrite (buildMeshes_key E HE).
             destruct (Progress.done progress); simpl; rewrite (merge_key E HE); by apply Hk. }
           destruct (updateTileStates_coupled E
                       (emit (BuildMeshes merged)
                          (set_tiles (insert (Tile.key tile) merged) s)))
             as (s1 & -> & Hk1 & Hc1 & _); [done| | |].
           { apply keyed_emit. intros k t'. simpl. rewrite lookup_insert. case_decide.
             - intros [= <-]. by subst k.
             - apply Hk. }
           { apply Hemit. revert Hc. apply coupled_same; [|done]. intros k. simpl.
             rewrite lookup_insert_is_Some. split.
             - intros [<-|[_ ?]]; [by rewrite Hcached | done].
             - intros Hs. destruct (decide (Tile.key tile = k)); [by left | by right]. }
           simpl. apply Hstop; [by apply keyed_emit | by apply Hemit].
    + destruct (updateTileStates_coupled E (emit (AbortBuild tile) s))
        as (s1 & -> & Hk1 & Hc1 & _); [done | by apply keyed_emit | by apply Hemit |].
      by apply Hstop.
  - apply keyed_emit. by apply keyed_forgetTile.
  - intros k. simpl. by apply (coupled_forgetTile (Tile.key tile) s).
Qed.

Lemma result_handlers_keep_coupling_witness :
  ∃ s', buildTileStylesCompleted Example.env Example.result_current Example.done
                                 Example.cached_a = Ok s'
        ∧ keyed s' ∧ coupled s'.
Proof.
  apply (result_handlers_keep_coupling Example.env Example.cached_a
           Example.result_current Example.done
           example_env_keeps_keys cached_a_keyed cached_a_coupled).
Defined.

(** ** Results for removed and for current tiles *)

(** X21. A result that arrives for a key that is no longer cached does not
    bring the tile back: with tiles cached under their keys and nothing
    queued, the handler aborts the build of the result and completes, and
    afterwards nothing is cached under the key and no key is cached that
    was not cached before. *)
Theorem late_result_not_readmitted (E : Env) (s : State)
        (tile : Tile.t) (progress : Progress.t) :
  keyed s → queued_coords s = [] → tiles s !! Tile.key tile = None →
  ∃ s', buildTileStylesCompleted E tile progress s = Ok s'
        ∧ tiles s' !! Tile.key tile = None
        ∧ (∀ k, is_Some (tiles s' !! k) → is_Some (tiles s !! k))
        ∧ AbortBuild tile ∈ trace s'.
Proof.
  intros Hk Hq Hnone. unfold buildTileStylesCompleted. rewrite Hnone.
  destruct (updateTileStates_reconciles E (emit (AbortBuild tile) s)) as (s1 & -> & Hr1);
    [by apply keyed_emit | done |].
  simpl. eexists. split; [done|].
  assert (Hr : reconciles (emit (AbortBuild tile) s)
                 (if Progress.done progress then tileBuildStop (Tile.key tile) s1 else s1)).
  { destruct (Progress.done progress); [|done].
    eapply reconciles_trans; [exact Hr1 | apply reconciles_tileBuildStop]. }
  destruct Hr as (Hc & Ht & _ & _).
  assert (Hsub : ∀ k, is_Some (tiles (if Progress.done progress
                                      then tileBuildStop (Tile.key tile) s1 else s1) !! k)
                      → is_Some (tiles s !! k)).
  { intros k [t' Ht']. destruct (Hc _ _ Ht') as (t0 & Ht0 & _). by exists t0. }
  split; [|split; [done|]].
  - apply eq_None_not_Some. intros Hs. apply Hsub in Hs. rewrite Hnone in Hs.
    by destruct Hs.
  - eapply elem_of_prefix; [|exact Ht]. simpl. rewrite elem_of_app, list_elem_of_singleton.
    by right.
Qed.

Lemma late_result_not_readmitted_witness :
  ∃ s', buildTileStylesCompleted Example.env Example.tile_b Example.done
                                 Example.cached_a = Ok s'
        ∧ tiles s' !! "b" = None
        ∧ (∀ k, is_Some (tiles s' !! k) → is_Some (tiles Example.cached_a !! k))
        ∧ AbortBuild Example.tile_b ∈ trace s'.
Proof.
  apply (late_result_not_readmitted Example.env Example.cached_a Example.tile_b Example.done).
  - exact cached_a_keyed.
  - reflexivity.
  - reflexivity.
Defined.

(** X22. A result for the cached tile itself, of the current generation
    and not superseded, is merged into the cached tile, which is marked
    built if the progress is done, before its meshes are built; a redraw is
    requested.  With tiles cached under their keys, a tile class that keeps
    keys and nothing queued, a tile still cached under the key afterwards is
    that merged tile, up to its [visible] flag and its proxy relation. *)
Theorem current_result_merged (E : Env) (s : State)
        (tile cached : Tile.t) (progress : Progress.t) :
  KeepsKeys E → keyed s → queued_coords s = [] →
  tiles s !! Tile.key tile = Some cached →
  Tile.generation tile = Scene.generation (scene s) →
  (Tile.id cached <= Tile.id tile)%Z →
  let merged :=
    buildMeshes E progress
      (if Progress.done progress then Tile.set_built true (merge E cached tile)
       else merge E cached tile) in
  ∃ s', buildTileStylesCompleted E tile progress s = Ok s'
        ∧ (∀ tile', tiles s' !! Tile.key tile = Some tile' → reconciled_from merged tile')
        ∧ BuildMeshes merged ∈ trace s'
        ∧ RequestRedraw ∈ trace s'.
Proof.
  intros HE Hk Hq Hcached Hgen Hid merged. unfold buildTileStylesCompleted.
  rewrite Hcached. rewrite decide_False by (intros Hne; by apply Hne).
  rewrite decide_False by lia. fold merged.
  assert (Hkey : Tile.key merged = Tile.key tile).
  { unfold merged. rewrite (buildMeshes_key E HE).
    destruct (Progress.done progress); simpl; rewrite (merge_key E HE); by apply Hk. }
  set (s0 := emit (BuildMeshes merged) (set_tiles (insert (Tile.key tile) merged) s)).
  destruct (updateTileStates_reconciles E s0) as (s1 & -> & Hr1); [|done|].
  { apply keyed_emit. intros k t'. simpl. rewrite lookup_insert. case_decide.
    - intros [= <-]. by subst k.
    - apply Hk. }
  simpl. eexists. split; [done|].
  set (s2 := emit RequestRedraw s1).
  set (s3 := if Progress.done progress then tileBuildStop (Tile.key merged) s2 else s2).
  assert (Hr23 : reconciles s2 s3).
  { unfold s3. destruct (Progress.done progress);
      [apply reconciles_tileBuildStop | apply reconciles_refl]. }
  assert (Hr : reconciles s0 s3).
  { eapply reconciles_trans; [exact Hr1|].
    eapply reconciles_trans; [apply (reconciles_emit RequestRedraw) | exact Hr23]. }
  destruct Hr as (Hc & Ht & _ & _). split; [|split].
  - intros tile' Ht'. destruct (Hc _ _ Ht') as (t0 & Ht0 & Hrec). simpl in Ht0.
    rewrite lookup_insert_eq in Ht0. by injection Ht0 as <-.
  - eapply elem_of_prefix; [|exact Ht]. simpl. rewrite elem_of_app, list_elem_of_singleton.
    by right.
  - destruct Hr23 as (_ & Ht23 & _ & _). eapply elem_of_prefix; [|exact Ht23].
    simpl. rewrite elem_of_app, list_elem_of_singleton. by right.
Qed.

Lemma current_result_merged_witness :
  ∃ s', buildTileStylesCompleted Example.env Example.result_current Example.done
                                 Example.cached_a = Ok s'
        ∧ (∀ tile', tiles s' !! "a" = Some tile' →
                    reconciled_from
                      (Tile.set_built true (merge Example.env Example.tile_a Example.result_current))
                      tile')
        ∧ BuildMeshes (Tile.set_built true
                         (merge Example.env Example.tile_a Example.result_current))
          ∈ trace s'
        ∧ RequestRedraw ∈ trace s'.
Proof.
  apply (current_result_merged Example.env Example.cached_a Example.result_current
           Example.tile_a Example.done example_env_keeps_keys cached_a_keyed).
  - reflexivity.
  - reflexivity.
  - reflexivity.
  - vm_compute. discriminate.
Defined.

(** ** Debug accessors *)

Lemma getDebug_folds (debug : Tile.t → option Q) (filter : option (Tile.t → bool))
      (l : list (string * Tile.t)) (vals : list Q) :
  let vals' := foldl (λ vals kt,
                        match debug kt.2 with
                        | Some v => if debug_passes filter kt.2 then vals ++ [v] else vals
                        | None => vals
                        end) vals l in
  foldl (λ sum kt,
           match debug kt.2 with
           | Some v => if debug_passes filter kt.2 then (sum + v)%Q else sum
           | None => sum
           end) (foldl Qplus 0%Q vals) l
  = foldl Qplus 0%Q vals'
  ∧ ∀ v, v ∈ vals'
         ↔ v ∈ vals ∨ ∃ kt, kt ∈ l ∧ debug kt.2 = Some v ∧ debug_passes filter kt.2 = true.
Proof.
  revert vals. induction l as [|kt l IH]; intros vals; simpl.
  - split; [done|]. intros v. split; [by left|]. intros [?|(kt & ?%elem_of_nil & _)]; done.
  - destruct (debug kt.2) as [v0|] eqn:Hd; [destruct (debug_passes filter kt.2) eqn:Hp|].
    + destruct (IH (vals ++ [v0])) as [Hsum Hel]. rewrite foldl_app in Hsum. simpl in Hsum.
      split; [done|]. intros v. rewrite Hel, elem_of_app, list_elem_of_singleton. split.
      * intros [[?| ->]|(kt' & Hin & ?)]; [by left | |].
        -- right. exists kt. split; [left | done].
        -- right. exists kt'. split; [by right | done].
      * intros [?|(kt' & [->|Hin]%elem_of_cons & Hd' & Hp')]; [by left; left | |].
        -- left. right. congruence.
        -- right. eauto.
    + destruct (IH vals) as [Hsum Hel]. split; [done|]. intros v. rewrite Hel. split.
      * intros [?|(kt' & Hin & ?)]; [by left|]. right. exists kt'. split; [by right | done].
      * intros [?|(kt' & [->|Hin]%elem_of_cons & Hd' & Hp')]; [by left | congruence |].
        right. eauto.
    + destruct (IH vals) as [Hsum Hel]. split; [done|]. intros v. rewrite Hel. split.
      * intros [?|(kt' & Hin & ?)]; [by left|]. right. exists kt'. split; [by right | done].
      * intros [?|(kt' & [->|Hin]%elem_of_cons & Hd' & Hp')]; [by left | congruence |].
        right. eauto.
Qed.

(** X23. [getDebugProp] collects the values of the property of the cached
    tiles that have it and pass the filter, and no others, and
    [getDebugSum] is the sum of the values that [getDebugProp] collects. *)
Theorem getDebugSum_sums_getDebugProp (debug : Tile.t → option Q)
        (filter : option (Tile.t → bool)) (s : State) :
  getDebugSum debug filter s = foldl Qplus 0%Q (getDebugProp debug filter s)
  ∧ ∀ v, v ∈ getDebugProp debug filter s
         ↔ ∃ k tile, tiles s !! k = Some tile ∧ debug tile = Some v
                     ∧ debug_passes filter tile = true.
Proof.
  destruct (getDebug_folds debug filter (map_to_list (tiles s)) []) as [Hsum Hel].
  split; [exact Hsum|]. intros v. unfold getDebugProp. rewrite Hel. split.
  - intros [?%elem_of_nil|([k t] & Hin & Hd & Hp)]; [done|].
    apply elem_of_map_to_list in Hin. eauto.
  - intros (k & t & Hkt & Hd & Hp). right. exists (k, t).
    split; [by apply elem_of_map_to_list | done].
Qed.


(** ** Visibility *)

(** X25. After [updateVisibility] a tile is visible exactly when its style
    zoom is the tile zoom of the view and its coordinate is a visible
    coordinate or a descendant of one.  The flag it had before does not
    matter, and nothing else of the tile changes. *)
Theorem updateVisibility_rule (E : Env) (s : State) (tile : Tile.t) :
  (Tile.visible (updateVisibility E s tile) = true
   ↔ Tile.style_z tile = View.tile_zoom (view s)
     ∧ (is_Some (visible_coords s !! Coord.key (Tile.coords tile))
        ∨ ∃ k c, visible_coords s !! k = Some c
                 ∧ isDescendant E (Tile.coords tile) c = true))
  ∧ updateVisibility E s tile
    = Tile.set_visible (Tile.visible (updateVisibility E s tile)) tile
  ∧ ∀ b, updateVisibility E s (Tile.set_visible b tile) = updateVisibility E s tile.
Proof.
  split; [|split; [done | by destruct tile]].
  unfold updateVisibility. simpl. case_decide as Hz; [|split; [done | tauto]].
  destruct (visible_coords s !! Coord.key (Tile.coords tile)) as [c|] eqn:Hc.
  - split; [|done]. intros _. split; [done|]. left. by exists c.
  - rewrite existsb_exists. split.
    + intros ([k c] & Hin & Hd). apply list_elem_of_In, elem_of_map_to_list in Hin.
      split; [done|]. right. eauto.
    + intros [_ [[? ?]|(k & c & Hkc & Hd)]]; [done|]. exists (k, c).
      split; [by apply list_elem_of_In, elem_of_map_to_list | done].
Qed.

(** ** Visible coordinates *)

Lemma visible_coords_tileBuildStop key s :
  visible_coords (tileBuildStop key s) = visible_coords s.
Proof.
  unfold tileBuildStop, checkBuildQueue. destruct (building_tiles s); simpl; [|done].
  by case_decide.
Qed.

Lemma visible_coords_removeTile key s s' :
  removeTile key s = Ok s' → visible_coords s' = visible_coords s.
Proof.
  unfold removeTile. destruct (tiles s !! key) as [tile|]; [|done]. intros [= <-].
  simpl. unfold forgetTile. rewrite visible_coords_tileBuildStop. simpl.
  by destruct (tiles s !! Tile.key tile).
Qed.

Lemma visible_coords_removeTiles filter s s' :
  removeTiles filter s = Ok s' → visible_coords s' = visible_coords s.
Proof.
  unfold removeTiles. generalize (map fst (List.filter (λ kt, filter kt.2)
                                             (map_to_list (tiles s)))).
  intros keys. revert s. induction keys as [|key keys IH]; intros s; simpl.
  - by intros [= <-].
  - destruct (removeTile key s) as [s1|e s1] eqn:Hrm; simpl.
    + intros Hfold. rewrite (IH _ Hfold). by eapply visible_coords_removeTile.
    + intros Hfold. exfalso. clear -Hfold. induction keys as [|k keys IH]; [done|].
      by apply IH.
Qed.

Lemma visible_coords_loadQueuedCoordinates (E : Env) s :
  visible_coords (loadQueuedCoordinates E s) = visible_coords s.
Proof.
  rewrite loadQueuedCoordinates_dispatch. simpl.
  assert (Hsource : ∀ c s0 source,
            visible_coords (loadSource E c s0 source) = visible_coords s0).
  { intros c s0 source. unfold loadSource. destruct (_ || _); [done|].
    destruct (normalizedKey E c source _); [|done]. by destruct (_ && _). }
  assert (Hcoord : ∀ c s0, visible_coords (loadCoordinate E c s0) = visible_coords s0).
  { intros c s0. unfold loadCoordinate. destruct (decide _) as [|_]; [done|].
    generalize (Scene.sources (scene s0)). intros l. revert s0.
    induction l as [|source l IH]; intros s0; simpl; [done|]. by rewrite IH, Hsource. }
  assert (Hfold : ∀ l s0,
            visible_coords (foldl (λ s coords, loadCoordinate E coords s) s0 l)
            = visible_coords s0).
  { induction l as [|c l IH]; intros s0; simpl; [done|]. by rewrite IH, Hcoord. }
  by rewrite Hfold.
Qed.

Lemma visible_coords_updateProxyTiles (E : Env) s :
  visible_coords (updateProxyTiles E s) = visible_coords s.
Proof.
  unfold updateProxyTiles. case_decide; [done|].
  assert (Hdesc : ∀ target ds sp,
            visible_coords
              (foldl (λ sp' d, (set_tiles (alter (Tile.setProxyFor target) d) sp'.1, true))
                     sp ds).1
            = visible_coords sp.1).
  { intros target ds. induction ds as [|d ds IH]; intros sp; simpl; [done|].
    by rewrite IH. }
  assert (Hstep : ∀ sp key, visible_coords (proxyStep E sp key).1 = visible_coords sp.1).
  { intros [s0 proxy] key. unfold proxyStep. destruct (tiles s0 !! key) as [tile|]; [|done].
    repeat case_decide; try done;
      destruct (Tile.visible tile && negb (Tile.labeled tile)); try done.
    all: try (by destruct (getAncestor E _ _ tile)).
    all: apply (Hdesc _ _ (s0, proxy)). }
  assert (Hfold : ∀ keys sp,
            visible_coords (foldl (proxyStep E) sp keys).1 = visible_coords sp.1).
  { induction keys as [|key keys IH]; intros sp; simpl; [done|]. by rewrite IH, Hstep. }
  specialize (Hfold (map fst (map_to_list (tiles (forEachTile (Tile.setProxyFor None) s))))
                (forEachTile (Tile.setProxyFor None) s, false)).
  destruct (foldl _ _ _) as [s2 proxy]. simpl in Hfold. by destruct proxy.
Qed.

Lemma visible_coords_updateLabels s : visible_coords (updateLabels s) = visible_coords s.
Proof.
  unfold updateLabels.
  destruct (Scene.building (scene s)) as [[[]]|]; repeat case_decide; try done;
    by destruct (Collision.task (collision s)).
Qed.

Lemma visible_coords_updateTileStates (E : Env) s s' :
  updateTileStates E s = Ok s' → visible_coords s' = visible_coords s.
Proof.
  unfold updateTileStates, pruneTilesForView.
  destruct (removeTiles _ _) as [s4|e s4] eqn:Hprune; [|done]. simpl. intros [= <-].
  rewrite visible_coords_updateLabels. simpl.
  rewrite (visible_coords_removeTiles _ _ _ Hprune), visible_coords_updateProxyTiles.
  by rewrite visible_coords_loadQueuedCoordinates.
Qed.

(** X26. A view update replaces the visible coordinates: with a tile class
    that keeps keys and tiles cached under their keys, [updateTilesForView]
    completes, and afterwards [visible_coords] holds, under their keys,
    coordinates that the view reported, one for each key reported, and none
    of those it held before. *)
Theorem updateTilesForView_visible_coords (E : Env) (s : State) :
  KeepsKeys E → keyed s →
  ∃ s', updateTilesForView E s = Ok s'
        ∧ (∀ k c, visible_coords s' !! k = Some c →
                  c ∈ findVisibleTileCoordinates E (view s) ∧ Coord.key c = k)
        ∧ (∀ c, c ∈ findVisibleTileCoordinates E (view s) →
                is_Some (visible_coords s' !! Coord.key c)).
Proof.
  intros HE Hk. destruct (updateTilesForView_completes E s HE Hk) as (s' & Hrun & _).
  exists s'. split; [done|]. unfold updateTilesForView in Hrun.
  apply visible_coords_updateTileStates in Hrun. rewrite Hrun. clear Hrun.
  assert (Hfold : ∀ l s0,
            let s1 := foldl (λ s coords,
                               set_visible_coords
                                 (<[Coord.key coords := coords]> (visible_coords s))
                                 (queueCoordinate coords s)) s0 l in
            (∀ k c, visible_coords s1 !! k = Some c →
                    (c ∈ l ∧ Coord.key c = k) ∨ visible_coords s0 !! k = Some c)
            ∧ (∀ k, is_Some (visible_coords s0 !! k) ∨ (∃ c, c ∈ l ∧ Coord.key c = k) →
                    is_Some (visible_coords s1 !! k))).
  { induction l as [|c0 l IH]; intros s0; simpl.
    - split; [by right|]. intros k [?|(c & ?%elem_of_nil & _)]; done.
    - destruct (IH (set_visible_coords (<[Coord.key c0 := c0]> (visible_coords s0))
                      (queueCoordinate c0 s0))) as [Hfrom Hto]. simpl in *. split.
      + intros k c Hkc. destruct (Hfrom k c Hkc) as [[Hin Hkey]|Hold].
        * left. split; [by right | done].
        * rewrite lookup_insert in Hold. case_decide as Heq.
          -- injection Hold as <-. left. split; [left | done].
          -- by right.
      + intros k Hk0. apply Hto. rewrite lookup_insert_is_Some.
        destruct (decide (Coord.key c0 = k)) as [Heq|Hne]; [by left; left|].
        destruct Hk0 as [?|(c & [->|Hin]%elem_of_cons & Hkey)]; [left; by right | done |].
        right. eauto. }
  destruct (Hfold (findVisibleTileCoordinates E (view s)) (set_visible_coords ∅ s))
    as [Hfrom Hto]. simpl in *. split.
  - intros k c Hkc. destruct (Hfrom k c Hkc) as [?|Hold]; [done|].
    by rewrite lookup_empty in Hold.
  - intros c Hin. apply Hto. right. eauto.
Qed.

Lemma env_two_visible_keeps_keys : KeepsKeys Example.env_two_visible.
Proof. by split. Qed.

Lemma stale_visible_keyed : keyed Example.stale_visible.
Proof.
  intros k t. simpl. rewrite lookup_singleton. case_decide; [|done]. by intros [= <-].
Qed.

Lemma updateTilesForView_visible_coords_witness :
  findVisibleTileCoordinates Example.env_two_visible (view Example.stale_visible)
  = [Example.coord 5 3 10; Example.coord 6 3 10]
  ∧ visible_coords Example.stale_visible !! "9/9/9" = Some (Example.coord 9 9 9)
  ∧ ∃ s', updateTilesForView Example.env_two_visible Example.stale_visible = Ok s'
          ∧ visible_coords s' !! "5/3/10" = Some (Example.coord 5 3 10)
          ∧ visible_coords s' !! "6/3/10" = Some (Example.coord 6 3 10)
          ∧ visible_coords s' !! "9/9/9" = None.
Proof.
  split; [reflexivity|]. split; [reflexivity|].
  destruct (updateTilesForView_visible_coords Example.env_two_visible Example.stale_visible
              env_two_visible_keeps_keys stale_visible_keyed)
    as (s' & Hrun & Hfrom & Hto).
  exists s'. split; [exact Hrun|]. clear Hrun.
  change (findVisibleTileCoordinates Example.env_two_visible (view Example.stale_visible))
    with [Example.coord 5 3 10; Example.coord 6 3 10] in Hfrom, Hto.
  assert (Hreported : ∀ k c, visible_coords s' !! k = Some c →
                             (c = Example.coord 5 3 10 ∧ k = "5/3/10")
                             ∨ (c = Example.coord 6 3 10 ∧ k = "6/3/10")).
  { intros k c Hkc. destruct (Hfrom k c Hkc) as [Hin Hkey]. subst k.
    apply elem_of_cons in Hin as [Hin|Hin]; [left; subst c; split; reflexivity|].
    apply elem_of_cons in Hin as [Hin|Hin]; [right; subst c; split; reflexivity|].
    apply elem_of_nil in Hin. destruct Hin. }
  clear Hfrom. split; [|split].
  - destruct (Hto (Example.coord 5 3 10)) as [c Hc]; [left|].
    change (Coord.key (Example.coord 5 3 10)) with "5/3/10" in Hc.
    destruct (Hreported _ _ Hc) as [[Heq _]|[_ Hk]]; [subst c; exact Hc | discriminate Hk].
  - destruct (Hto (Example.coord 6 3 10)) as [c Hc]; [right; left|].
    change (Coord.key (Example.coord 6 3 10)) with "6/3/10" in Hc.
    destruct (Hreported _ _ Hc) as [[_ Hk]|[Heq _]]; [discriminate Hk | subst c; exact Hc].
  - destruct (visible_coords s' !! "9/9/9") as [c|] eqn:Hc; [|reflexivity].
    destruct (Hreported _ _ Hc) as [[_ Hk]|[_ Hk]]; discriminate Hk.
Defined.

(** ** Eviction *)

(** X27. [removeTile] of a cached key, in a cache that holds tiles under
    their keys, destroys the tile, forgets it and then requests a redraw:
    afterwards the key is neither cached, nor in the pyramid, nor under
    build, the other tiles are untouched, and the events added are the
    destroy, the build-done notification if the tracker became empty, and
    the redraw request, in this order. *)
Theorem removeTile_evicts (s : State) (key : string) (tile : Tile.t) :
  keyed s → tiles s !! key = Some tile →
  ∃ s', removeTile key s = Ok s'
        ∧ tiles s' = delete key (tiles s)
        ∧ pyramid s' = pyramid s ∖ {[ key ]}
        ∧ ¬ building key s'
        ∧ (trace s' = trace s ++ [TileDestroy tile; RequestRedraw]
           ∨ trace s' = trace s ++ [TileDestroy tile; TileManagerBuildDone; RequestRedraw]).
Proof.
  intros Hk Ht. destruct (removeTile_step key tile s Hk Ht) as (s' & Hrm & Ht' & Hp' & _ & _ & Hb').
  exists s'. split; [done|]. split; [done|]. split; [done|]. split.
  - intros Hb. by destruct (Hb' key Hb).
  - rewrite (removeTile_cached _ _ _ Ht), (Hk _ _ Ht) in Hrm. injection Hrm as <-.
    simpl. unfold forgetTile.
    destruct (trace_tileBuildStop key
                (set_tiles (delete key)
                   match tiles (emit (TileDestroy tile) s) !! key with
                   | Some cached => set_pyramid (Pyramid.removeTile cached)
                                      (emit (TileDestroy tile) s)
                   | None => emit (TileDestroy tile) s
                   end)) as [Htr|Htr];
      rewrite Htr; simpl; rewrite Ht; simpl; [left | right]; by rewrite <- !app_assoc.
Qed.

Lemma removeTile_evicts_witness :
  ∃ s', removeTile "a" Example.cached_a = Ok s'
        ∧ tiles s' = delete "a" (tiles Example.cached_a)
        ∧ pyramid s' = pyramid Example.cached_a ∖ {[ "a" ]}
        ∧ ¬ building "a" s'
        ∧ (trace s' = trace Example.cached_a ++ [TileDestroy Example.tile_a; RequestRedraw]
           ∨ trace s' = trace Example.cached_a
                        ++ [TileDestroy Example.tile_a; TileManagerBuildDone; RequestRedraw]).
Proof.
  apply (removeTile_evicts Example.cached_a "a" Example.tile_a cached_a_keyed).
  reflexivity.
Defined.
